(** * tkp.db.general: source association back end

    A shallow embedding of [tkp/db/general.py]: the bulk insert of
    detections into [extractedsource], the removal of user-entry forced
    fits that have a counterpart, the light-curve query and the catalog
    cross-match.  The scripts around it follow: the header injection of
    [trap/inject.py], the classification step of
    [tkp/steps/classification.py] and the job loop of the quality-check
    recipe.

    Modelling conventions.
    - A table is the list of its rows, in storage order; a query is a
      function from the tables to a list of result rows.
    - Python floats and SQL DOUBLE values are real numbers ([R]); rounding,
      overflow and NaN are outside the model, and division is the total
      division of [R].  The one non-finite value the code itself tests for
      (an infinite [error_radius]) is kept, as [pyfloat].
    - The database raises an error where an expression divides by zero;
      the two queries with a De Ruiter radius are modelled on the stores
      where no denominator vanishes ([filter_ud_divides],
      [match_divides]).  A statement that depends on the value of such
      a quotient, or on the call completing after evaluating one, carries
      that condition.
    - SQL leaves the order of rows with equal ORDER BY keys open;
      [ORDER_BY] picks one such order, and statements about results are
      about the keys or hold up to a permutation.
    - [logger.info] calls are recorded as a list of [log_record], one
      constructor per format string.
    - A Python function that may raise returns an [outcome]. *)

From Stdlib Require Import Reals Lra Lia ZArith List Bool String.
From Stdlib Require Import Sorting.Sorted Sorting.Permutation.
Import ListNotations.

Open Scope R_scope.

(** ** Numeric primitives shared by the Python code and the SQL text *)

(** [math.radians] / SQL [RADIANS]. *)
Definition RADIANS (d : R) : R := d * PI / 180.

(** [math.degrees] / SQL [DEGREES]. *)
Definition DEGREES (r : R) : R := r * 180 / PI.

(** [int(math.floor(x))] / SQL [CAST(FLOOR(x) AS INTEGER)]. *)
Definition FLOOR (x : R) : Z := Zfloor x.

Definition Rltb (a b : R) : bool := if Rlt_dec a b then true else false.
Definition Rleb (a b : R) : bool := if Rle_dec a b then true else false.

(** SQL [x BETWEEN lo AND hi], on DOUBLE and on INTEGER columns. *)
Definition BETWEEN (x lo hi : R) : bool := Rleb lo x && Rleb x hi.
Definition BETWEEN_INT (x lo hi : Z) : bool := (lo <=? x)%Z && (x <=? hi)%Z.

(** A Python float that may be infinite ([math.isinf]). *)
Inductive pyfloat : Type :=
| Finite (r : R)
| Infinite.

(** Modelled from the spec: [tkp.utility.substitute_inf] is imported by
    general.py but is not under src/.  Spec 4.1 step 1: an infinite
    [error_radius] is replaced with the given substitute (360.0); a finite
    value is passed through. *)
Definition substitute_inf (value : pyfloat) (substitute : R) : R :=
  match value with
  | Finite r => r
  | Infinite => substitute
  end.

(** Modelled from the spec: [tkp.utility.coordinates.eq_to_cart] is not
    under src/.  Spec 4.1 step 6 and the invariant of section 3: the
    unit vector on the celestial sphere at (ra, decl). *)
Definition eq_to_cart (ra decl : R) : R * R * R :=
  (cos (RADIANS decl) * cos (RADIANS ra),
   cos (RADIANS decl) * sin (RADIANS ra),
   sin (RADIANS decl)).

(** ** Data model *)

(** One sourcefinder detection: the strict sequence [(0) .. (14)] of the
    docstring of [insert_extracted_sources]. *)
Record detection : Type := mkDetection {
  d_ra : R;              (* (0) *)
  d_decl : R;            (* (1) *)
  d_ra_fit_err : R;      (* (2) *)
  d_decl_fit_err : R;    (* (3) *)
  d_peak_flux : R;       (* (4) *)
  d_peak_flux_err : R;   (* (5) *)
  d_int_flux : R;        (* (6) *)
  d_int_flux_err : R;    (* (7) *)
  d_sigma : R;           (* (8) *)
  d_beam_maj : R;        (* (9) *)
  d_beam_min : R;        (* (10) *)
  d_beam_pa : R;         (* (11) *)
  d_ew_sys_err : R;      (* (12) *)
  d_ns_sys_err : R;      (* (13) *)
  d_error_radius : pyfloat (* (14) *)
}.

(** The 26 values the loop of [insert_extracted_sources] builds per
    detection, named after the columns of the INSERT statement. *)
Record xtrsrc : Type := mkXtrsrc {
  ex_ra : R;
  ex_decl : R;
  ex_ra_fit_err : R;
  ex_decl_fit_err : R;
  ex_f_peak : R;
  ex_f_peak_err : R;
  ex_f_int : R;
  ex_f_int_err : R;
  ex_det_sigma : R;
  ex_semimajor : R;
  ex_semiminor : R;
  ex_pa : R;
  ex_ew_sys_err : R;
  ex_ns_sys_err : R;
  ex_error_radius : R;
  ex_ra_err : R;
  ex_decl_err : R;
  ex_uncertainty_ew : R;
  ex_uncertainty_ns : R;
  ex_image : Z;
  ex_zone : Z;
  ex_x : R;
  ex_y : R;
  ex_z : R;
  ex_racosdecl : R;
  ex_extract_type : Z
}.

(** A stored row of [extractedsource]: the columns and the row's [id]. *)
Record extractedsource_row : Type := mkRow {
  ex_id : Z;
  ex_cols : xtrsrc
}.

Coercion ex_cols : extractedsource_row >-> xtrsrc.

Record assocxtrsource_row : Type := mkAssoc {
  ax_runcat : Z;
  ax_xtrsrc : Z
}.

Record image_row : Type := mkImage {
  im_id : Z;
  im_taustart_ts : Z;
  im_tau_time : R;
  im_band : Z;
  im_stokes : Z
}.

Record frequencyband_row : Type := mkBand {
  bd_id : Z;
  bd_freq_central : R
}.

Record runningcatalog_row : Type := mkRuncat {
  r_id : Z;
  wm_ra : R;
  wm_decl : R;
  wm_uncertainty_ew : R;
  wm_uncertainty_ns : R;
  r_x : R;
  r_y : R;
  r_z : R
}.

Record catalogedsource_row : Type := mkCatsrc {
  c_id : Z;
  c_catsrcname : string;
  c_catalog : Z;
  c_ra : R;
  c_decl : R;
  c_uncertainty_ew : R;
  c_uncertainty_ns : R;
  c_zone : Z;
  c_x : R;
  c_y : R;
  c_z : R
}.

Record catalog_row : Type := mkCatalog {
  k_id : Z;
  k_name : string
}.

(** The store.  [extractedsource_seq] is the next identifier the table
    hands out.  Modelled from the spec: the schema (and so the identifier
    sequence of [extractedsource]) is not under src/; spec 4.4: each
    inserted detection receives a unique identifier. *)
Record database : Type := mkDb {
  extractedsource : list extractedsource_row;
  extractedsource_seq : Z;
  assocxtrsource : list assocxtrsource_row;
  images : list image_row;
  frequencyband : list frequencyband_row;
  runningcatalog : list runningcatalog_row;
  catalogedsource : list catalogedsource_row;
  catalog : list catalog_row
}.

Definition set_extractedsource (db : database)
    (rows : list extractedsource_row) (seq : Z) : database :=
  {| extractedsource := rows;
     extractedsource_seq := seq;
     assocxtrsource := assocxtrsource db;
     images := images db;
     frequencyband := frequencyband db;
     runningcatalog := runningcatalog db;
     catalogedsource := catalogedsource db;
     catalog := catalog db |}.

(** Primary key of [extractedsource]: identifiers are pairwise distinct
    and below the sequence. *)
Definition wf_db (db : database) : Prop :=
  NoDup (map ex_id (extractedsource db)) /\
  Forall (fun row => (ex_id row < extractedsource_seq db)%Z) (extractedsource db).

(** ** Effects *)

Inductive exception : Type :=
| ValueError (msg : string).

Inductive outcome (A : Type) : Type :=
| Returned (a : A)
| Raised (e : exception).
Arguments Returned {A} a.
Arguments Raised {A} e.

Definition bind {A B : Type} (m : outcome A) (f : A -> outcome B) : outcome B :=
  match m with
  | Returned a => f a
  | Raised e => Raised e
  end.

Notation "'do' a <- m ; k" := (bind m (fun a => k))
  (at level 10, a name, m at level 100, k at level 200).

(** The [logger.info] messages of general.py. *)
Inductive log_record : Type :=
| NoSourcesAdded (extract : string) (image_id : Z)
    (* "No extract_type=%s sources added to extractedsource for image %s" *)
| NoForcedFitAdded (image_id : Z)
    (* "No forced-fit sources added to extractedsource for image %s" *)
| InsertedSources (insert_num : nat) (image_id : Z)
    (* "Inserted %d sources in extractedsource for image %s" *)
| InsertedNullDetections (insert_num : nat) (image_id : Z)
    (* "Inserted %d forced-fit null detections in extractedsource for image %s" *)
| InsertedMonitoring (insert_num : nat) (image_id : Z)
    (* "Inserted %d forced-fit for monitoring sourcs in extractedsource for image %s" *)
| NoUserEntryRemoved (image_id : Z)
    (* "No user-entry sources removed from extractedsource for image %s" *)
| RemovedSources (rowcount : nat) (image_id : Z).
    (* "Removed %d sources from extractedsource for image %s" *)

(** A value of a result row, and a result row as [cursor.fetchall]
    returns it: a tuple of column values. *)
Inductive sqlvalue : Type :=
| SqlInt (n : Z)
| SqlDouble (v : R)
| SqlTimestamp (t : Z)
| SqlString (s : string).

Definition tuple : Type := list sqlvalue.

(** One dictionary of the list [match_nearests_in_catalogs] returns; the
    fields are the keys of [descriptions], in order. *)
Record match_dict : Type := mkMatch {
  catsrcid : Z;
  catsrcname : string;
  catid : Z;
  catname : string;
  ra : R;
  decl : R;
  uncertainty_ew : R;
  uncertainty_ns : R;
  dist_arcsec : R;
  assoc_r : R
}.

(** [ORDER BY]: a stable insertion sort on the order [leb]. *)
Section OrderBy.
Context {A : Type} (leb : A -> A -> bool).

Fixpoint insert_by (a : A) (l : list A) : list A :=
  match l with
  | [] => [a]
  | b :: l' => if leb a b then a :: l else b :: insert_by a l'
  end.

Definition ORDER_BY (l : list A) : list A := fold_right insert_by [] l.
End OrderBy.

(** What a call leaves behind: the store, the log lines, the outcome. *)
Record run (A : Type) : Type := mkRun {
  store : database;
  logged : list log_record;
  result : outcome A
}.
Arguments mkRun {A} store logged result.
Arguments store {A} r.
Arguments logged {A} r.
Arguments result {A} r.

(** ** The operations of general.py *)

Section Model.

(** [tkp.utility.coordinates.alpha_inflate], the RA inflation function
    called by the insert loop.  It is imported, not defined under src/:
    a parameter of the model. *)
Variable alpha_inflate : R -> R -> R.

(** The SQL function [alpha(theta, decl)] the WHERE clauses call.  It is
    part of the database schema, not of src/: a parameter of the model. *)
Variable alpha : R -> R -> R.

(** *** insert_extracted_sources *)

(** The [if extract == ... elif ... else raise] chain of the loop. *)
Definition extract_type_tag (extract : string) : outcome Z :=
  if String.eqb extract "blind" then Returned 0%Z
  else if String.eqb extract "ff_nd" then Returned 1%Z
  else if String.eqb extract "ff_ms" then Returned 2%Z
  else Raised (ValueError
         ("Not a valid extractedsource insert type: '" ++ extract ++ "'")%string).

(** One pass of the loop body: [r = list(src)], the substitution of an
    infinite [r[14]], and the appended columns in the order of the code. *)
Definition enriched (image_id : Z) (extract : string) (src : detection)
    : outcome xtrsrc :=
  let r14 := substitute_inf (d_error_radius src) 360 in
  let ra_err :=
    sqrt (d_ra_fit_err src ^ 2
          + alpha_inflate (d_ew_sys_err src / 3600) (d_decl src) ^ 2) in
  let decl_err :=
    sqrt (d_decl_fit_err src ^ 2 + (d_ns_sys_err src / 3600) ^ 2) in
  let uncertainty_ew := sqrt (d_ew_sys_err src ^ 2 + r14 ^ 2) / 3600 in
  let uncertainty_ns := sqrt (d_ns_sys_err src ^ 2 + r14 ^ 2) / 3600 in
  let zone := FLOOR (d_decl src) in
  let '(x, y, z) := eq_to_cart (d_ra src) (d_decl src) in
  let racosdecl := d_ra src * cos (RADIANS (d_decl src)) in
  do tag <- extract_type_tag extract;
  Returned
    {| ex_ra := d_ra src;
       ex_decl := d_decl src;
       ex_ra_fit_err := d_ra_fit_err src;
       ex_decl_fit_err := d_decl_fit_err src;
       ex_f_peak := d_peak_flux src;
       ex_f_peak_err := d_peak_flux_err src;
       ex_f_int := d_int_flux src;
       ex_f_int_err := d_int_flux_err src;
       ex_det_sigma := d_sigma src;
       ex_semimajor := d_beam_maj src;
       ex_semiminor := d_beam_min src;
       ex_pa := d_beam_pa src;
       ex_ew_sys_err := d_ew_sys_err src;
       ex_ns_sys_err := d_ns_sys_err src;
       ex_error_radius := r14;
       ex_ra_err := ra_err;
       ex_decl_err := decl_err;
       ex_uncertainty_ew := uncertainty_ew;
       ex_uncertainty_ns := uncertainty_ns;
       ex_image := image_id;
       ex_zone := zone;
       ex_x := x;
       ex_y := y;
       ex_z := z;
       ex_racosdecl := racosdecl;
       ex_extract_type := tag |}.

(** [for src in results: ... xtrsrc.append(r)]; the first [raise] ends
    the loop. *)
Fixpoint build_xtrsrc (image_id : Z) (extract : string)
    (results : list detection) : outcome (list xtrsrc) :=
  match results with
  | [] => Returned []
  | src :: rest =>
      do r <- enriched image_id extract src;
      do rs <- build_xtrsrc image_id extract rest;
      Returned (r :: rs)
  end.

(** The rows an INSERT adds: one per value tuple, in order, with
    consecutive identifiers from the sequence. *)
Fixpoint with_ids (next : Z) (values : list xtrsrc) : list extractedsource_row :=
  match values with
  | [] => []
  | v :: vs => {| ex_id := next; ex_cols := v |} :: with_ids (next + 1) vs
  end.

(** [INSERT INTO extractedsource (...) VALUES ...] with [commit=True];
    the second component is [cursor.rowcount]. *)
Definition INSERT_INTO_extractedsource (db : database) (values : list xtrsrc)
    : database * nat :=
  (set_extractedsource db
     (extractedsource db ++ with_ids (extractedsource_seq db) values)%list
     (extractedsource_seq db + Z.of_nat (List.length values)),
   List.length values).

(** The logging tail of the function. *)
Definition insert_log (extract : string) (insert_num : nat) (image_id : Z)
    : list log_record :=
  if Nat.eqb insert_num 0 then [NoForcedFitAdded image_id]
  else if String.eqb extract "blind" then [InsertedSources insert_num image_id]
  else if String.eqb extract "ff_nd" then [InsertedNullDetections insert_num image_id]
  else if String.eqb extract "ff_ms" then [InsertedMonitoring insert_num image_id]
  else [].

Definition insert_extracted_sources (db : database) (image_id : Z)
    (results : list detection) (extract : string) : run unit :=
  match results with
  | [] => mkRun db [NoSourcesAdded extract image_id] (Returned tt)
  | _ :: _ =>
      match build_xtrsrc image_id extract results with
      | Raised e => mkRun db [] (Raised e)
      | Returned values =>
          let '(db', insert_num) := INSERT_INTO_extractedsource db values in
          mkRun db' (insert_log extract insert_num image_id) (Returned tt)
      end
  end.

(** *** filter_userdetections_extracted_sources *)

(** The De Ruiter radius of the subquery, at the mean declination of the
    two rows (lines 75-79). *)
Definition filter_ud_de_ruiter (x0 x1 : xtrsrc) : R :=
  sqrt ((ex_ra x0 - ex_ra x1) * cos (RADIANS ((ex_decl x0 + ex_decl x1) / 2))
        * (ex_ra x0 - ex_ra x1) * cos (RADIANS ((ex_decl x0 + ex_decl x1) / 2))
        / (ex_uncertainty_ew x0 * ex_uncertainty_ew x0
           + ex_uncertainty_ew x1 * ex_uncertainty_ew x1)
        + (ex_decl x0 - ex_decl x1) * (ex_decl x0 - ex_decl x1)
        / (ex_uncertainty_ns x0 * ex_uncertainty_ns x0
           + ex_uncertainty_ns x1 * ex_uncertainty_ns x1)).

(** The band conditions of the subquery (lines 69-74): zone band,
    declination band and RA band around [x0]. *)
Definition filter_ud_bands (assoc_theta : R) (x0 x1 : xtrsrc) : bool :=
  BETWEEN_INT (ex_zone x1) (FLOOR (ex_decl x0 - assoc_theta))
                           (FLOOR (ex_decl x0 + assoc_theta))
  && BETWEEN (ex_decl x1) (ex_decl x0 - assoc_theta) (ex_decl x0 + assoc_theta)
  && BETWEEN (ex_ra x1) (ex_ra x0 - alpha assoc_theta (ex_decl x0))
                        (ex_ra x0 + alpha assoc_theta (ex_decl x0)).

(** The positional conditions of the subquery (lines 69-80): the bands
    and the De Ruiter cut. *)
Definition filter_ud_counterpart (assoc_theta deRuiter_r : R)
    (x0 x1 : xtrsrc) : bool :=
  filter_ud_bands assoc_theta x0 x1
  && Rltb (filter_ud_de_ruiter x0 x1) deRuiter_r.

(** The WHERE clause of the subquery over the pair [(x0, x1)]. *)
Definition filter_ud_where (image_id : Z) (assoc_theta deRuiter_r : R)
    (x0 x1 : extractedsource_row) : bool :=
  (ex_image x0 =? image_id)%Z
  && (ex_extract_type x0 =? 3)%Z
  && (ex_image x1 =? image_id)%Z
  && existsb (Z.eqb (ex_extract_type x1)) [0; 1; 2]%Z
  && filter_ud_counterpart assoc_theta deRuiter_r x0 x1.

(** [SELECT x0.id FROM extractedsource x0, extractedsource x1 WHERE ...]. *)
Definition filter_ud_subquery (db : database) (image_id : Z)
    (assoc_theta deRuiter_r : R) : list Z :=
  flat_map
    (fun x0 =>
       flat_map
         (fun x1 =>
            if filter_ud_where image_id assoc_theta deRuiter_r x0 x1
            then [ex_id x0] else [])
         (extractedsource db))
    (extractedsource db).

(** [DELETE FROM extractedsource WHERE id IN (...)]: the rows kept, and
    [cursor.rowcount]. *)
Definition DELETE_WHERE_id_IN (ids : list Z) (rows : list extractedsource_row)
    : list extractedsource_row * nat :=
  let kept := filter (fun row => negb (existsb (Z.eqb (ex_id row)) ids)) rows in
  (kept, (List.length rows - List.length kept)%nat).

(** The keyword argument [assoc_theta=0.03]. *)
Definition assoc_theta_arg (assoc_theta : option R) : R :=
  match assoc_theta with
  | Some theta => theta
  | None => 3 / 100
  end.

(** No pair of stored rows has a zero denominator in the De Ruiter
    expression (lines 76 and 78).  The self-join ranges over every pair;
    where a denominator is zero the database raises a division error
    instead of evaluating the subquery. *)
Definition filter_ud_divides (db : database) : Prop :=
  forall x0 x1 : extractedsource_row,
    In x0 (extractedsource db) -> In x1 (extractedsource db) ->
    ex_uncertainty_ew x0 * ex_uncertainty_ew x0
      + ex_uncertainty_ew x1 * ex_uncertainty_ew x1 <> 0
    /\ ex_uncertainty_ns x0 * ex_uncertainty_ns x0
       + ex_uncertainty_ns x1 * ex_uncertainty_ns x1 <> 0.

(** The call on a store where the subquery evaluates
    ([filter_ud_divides]); on other stores the database may raise. *)
Definition filter_userdetections_extracted_sources (db : database)
    (image_id : Z) (deRuiter_r : R) (assoc_theta : option R) : run unit :=
  let theta := assoc_theta_arg assoc_theta in
  let ids := filter_ud_subquery db image_id theta deRuiter_r in
  let '(kept, rowcount) := DELETE_WHERE_id_IN ids (extractedsource db) in
  mkRun (set_extractedsource db kept (extractedsource_seq db))
        (if Nat.eqb rowcount 0 then [NoUserEntryRemoved image_id]
         else [RemovedSources rowcount image_id])
        (Returned tt).

(** *** lightcurve *)

Definition lightcurve_row : Type :=
  (extractedsource_row * assocxtrsource_row * image_row * frequencyband_row)%type.

(** [FROM extractedsource ex, assocxtrsource ax, image im, frequencyband bd]. *)
Definition lightcurve_from (db : database) : list lightcurve_row :=
  flat_map
    (fun ex =>
       flat_map
         (fun ax =>
            flat_map
              (fun im => map (fun bd => (ex, ax, im, bd)) (frequencyband db))
              (images db))
         (assocxtrsource db))
    (extractedsource db).

(** [SELECT runcat FROM assocxtrsource WHERE xtrsrc = %(xtrsrc)s]. *)
Definition runcats_of (db : database) (xtrsrc : Z) : list Z :=
  map ax_runcat (filter (fun a => (ax_xtrsrc a =? xtrsrc)%Z) (assocxtrsource db)).

Definition lightcurve_where (db : database) (xtrsrc : Z) (j : lightcurve_row)
    : bool :=
  let '(ex, ax, im, bd) := j in
  existsb (Z.eqb (ax_runcat ax)) (runcats_of db xtrsrc)
  && (ax_xtrsrc ax =? ex_id ex)%Z
  && (ex_image ex =? im_id im)%Z
  && (bd_id bd =? im_band im)%Z.

(** The SELECT list of [lightcurve_query] (lines 24-31). *)
Definition lightcurve_select (j : lightcurve_row) : tuple :=
  let '(ex, ax, im, bd) := j in
  [ SqlTimestamp (im_taustart_ts im);
    SqlDouble (im_tau_time im);
    SqlDouble (ex_f_int ex);
    SqlDouble (ex_f_int_err ex);
    SqlInt (ex_id ex);
    SqlInt (im_band im);
    SqlInt (im_stokes im);
    SqlDouble (bd_freq_central bd) ].

(** [ORDER BY im.taustart_ts]. *)
Definition by_taustart_ts (j1 j2 : lightcurve_row) : bool :=
  let '(_, _, im1, _) := j1 in
  let '(_, _, im2, _) := j2 in
  (im_taustart_ts im1 <=? im_taustart_ts im2)%Z.

Definition lightcurve_rows (db : database) (xtrsrc : Z) : list lightcurve_row :=
  ORDER_BY by_taustart_ts (filter (lightcurve_where db xtrsrc) (lightcurve_from db)).

Definition lightcurve_query (db : database) (xtrsrc : Z) : list tuple :=
  map lightcurve_select (lightcurve_rows db xtrsrc).

Definition lightcurve (db : database) (xtrsrcid : Z) : run (list tuple) :=
  mkRun db [] (Returned (lightcurve_query db xtrsrcid)).

(** *** match_nearests_in_catalogs *)

Definition match_row : Type :=
  (runningcatalog_row * catalogedsource_row * catalog_row)%type.

(** [FROM runningcatalog r, catalogedsource c, catalog k]. *)
Definition match_from (db : database) : list match_row :=
  flat_map
    (fun r =>
       flat_map
         (fun c => map (fun k => (r, c, k)) (catalog db))
         (catalogedsource db))
    (runningcatalog db).

(** The selected column [distance_arcsec] (lines 365-369). *)
Definition SELECT_distance_arcsec (r : runningcatalog_row)
    (c : catalogedsource_row) : R :=
  3600 * DEGREES (2 * asin (sqrt ((r_x r - c_x c) * (r_x r - c_x c)
                                  + (r_y r - c_y c) * (r_y r - c_y c)
                                  + (r_z r - c_z c) * (r_z r - c_z c)) / 2)).

(** The selected column [assoc_r] (lines 370-375): the RA difference is
    weighted with the declination of the running source. *)
Definition SELECT_assoc_r (r : runningcatalog_row) (c : catalogedsource_row) : R :=
  sqrt ((wm_ra r - c_ra c) * cos (RADIANS (wm_decl r))
        * (wm_ra r - c_ra c) * cos (RADIANS (wm_decl r))
        / (wm_uncertainty_ew r * wm_uncertainty_ew r
           + c_uncertainty_ew c * c_uncertainty_ew c)
        + (wm_decl r - c_decl c) * (wm_decl r - c_decl c)
        / (wm_uncertainty_ns r * wm_uncertainty_ns r
           + c_uncertainty_ns c * c_uncertainty_ns c)).

(** The De Ruiter radius of the WHERE clause (lines 388-392): the RA
    difference is weighted at the mean declination. *)
Definition WHERE_de_ruiter (r : runningcatalog_row) (c : catalogedsource_row) : R :=
  sqrt ((wm_ra r - c_ra c) * cos (RADIANS ((wm_decl r + c_decl c) / 2))
        * (wm_ra r - c_ra c) * cos (RADIANS ((wm_decl r + c_decl c) / 2))
        / (wm_uncertainty_ew r * wm_uncertainty_ew r
           + c_uncertainty_ew c * c_uncertainty_ew c)
        + (wm_decl r - c_decl c) * (wm_decl r - c_decl c)
        / (wm_uncertainty_ns r * wm_uncertainty_ns r
           + c_uncertainty_ns c * c_uncertainty_ns c)).

(** The band conditions of the WHERE clause (lines 380-385): zone band,
    declination band and RA band around the running source. *)
Definition match_bands (radius : R) (r : runningcatalog_row)
    (c : catalogedsource_row) : bool :=
  BETWEEN_INT (c_zone c) (FLOOR (wm_decl r - radius)) (FLOOR (wm_decl r + radius))
  && BETWEEN (c_decl c) (wm_decl r - radius) (wm_decl r + radius)
  && BETWEEN (c_ra c) (wm_ra r - alpha radius (wm_decl r))
                      (wm_ra r + alpha radius (wm_decl r)).

(** The cone test on the unit vectors (line 386): the angular separation
    is below [radius]. *)
Definition match_cone (radius : R) (r : runningcatalog_row)
    (c : catalogedsource_row) : bool :=
  Rltb (cos (RADIANS radius)) (c_x c * r_x r + c_y c * r_y r + c_z c * r_z r).

(** The spatial conditions of the WHERE clause (lines 380-386). *)
Definition match_spatial (radius : R) (r : runningcatalog_row)
    (c : catalogedsource_row) : bool :=
  match_bands radius r c && match_cone radius r c.

Definition match_where (runcatid : Z) (radius deruiter : R) (j : match_row)
    : bool :=
  let '(r, c, k) := j in
  (r_id r =? runcatid)%Z
  && match_spatial radius r c
  && (c_catalog c =? k_id k)%Z
  && Rltb (WHERE_de_ruiter r c) deruiter.

(** The SELECT list, zipped with [descriptions]. *)
Definition match_select (j : match_row) : match_dict :=
  let '(r, c, k) := j in
  {| catsrcid := c_id c;
     catsrcname := c_catsrcname c;
     catid := c_catalog c;
     catname := k_name k;
     ra := c_ra c;
     decl := c_decl c;
     uncertainty_ew := c_uncertainty_ew c;
     uncertainty_ns := c_uncertainty_ns c;
     dist_arcsec := SELECT_distance_arcsec r c;
     assoc_r := SELECT_assoc_r r c |}.

(** [ORDER BY c.catalog, assoc_r]. *)
Definition by_catalog_assoc_r (m1 m2 : match_dict) : bool :=
  (catid m1 <? catid m2)%Z
  || ((catid m1 =? catid m2)%Z && Rleb (assoc_r m1) (assoc_r m2)).

Definition match_matches (db : database) (runcatid : Z) (radius deRuiter_r : R)
    : list match_dict :=
  map match_select (filter (match_where runcatid radius deRuiter_r) (match_from db)).

(** No pair of a running source and a catalog source has a zero
    denominator in the two De Ruiter expressions (lines 372, 374, 390 and
    392); where one is zero the database raises a division error for the
    join rows it evaluates. *)
Definition match_divides (db : database) : Prop :=
  forall (r : runningcatalog_row) (c : catalogedsource_row),
    In r (runningcatalog db) -> In c (catalogedsource db) ->
    wm_uncertainty_ew r * wm_uncertainty_ew r
      + c_uncertainty_ew c * c_uncertainty_ew c <> 0
    /\ wm_uncertainty_ns r * wm_uncertainty_ns r
       + c_uncertainty_ns c * c_uncertainty_ns c <> 0.

(** The call on a store where the query evaluates ([match_divides]); on
    other stores the database may raise. *)
Definition match_nearests_in_catalogs (db : database) (runcatid : Z)
    (radius deRuiter_r : R) : run (list match_dict) :=
  mkRun db []
    (Returned (ORDER_BY by_catalog_assoc_r
                 (match_matches db runcatid radius deRuiter_r))).

End Model.

(** ** Python values, dictionaries and exceptions of the scripts

    The modules below embed [trap/inject.py], [tkp/steps/classification.py]
    and the job loop of [trap/recipes/master/quality_check.py].  A Python
    dictionary with string keys is the list of its items, each key at
    most once; [d[key] = value] replaces the value of a key that is
    there and adds the item otherwise.  What the code reads from a
    dictionary ([has_key], [d[key]]) goes through [dict_get], so the
    order of the items never shows in a result. *)

Inductive pyvalue : Type :=
| PyStr (s : string)
| PyInt (n : Z)
| PyFloat (x : R).

Inductive py_error : Type :=
| KeyError (key : string)
| RuntimeError
| StopIteration.

Inductive py_outcome (A : Type) : Type :=
| Ok (a : A)
| Raises (e : py_error).
Arguments Ok {A} a.
Arguments Raises {A} e.

Section Dict.
Context {V : Type}.

(** [d.get(key)]: [None] stands for a missing key. *)
Fixpoint dict_get (d : list (string * V)) (key : string) : option V :=
  match d with
  | [] => None
  | (k, v) :: rest => if String.eqb k key then Some v else dict_get rest key
  end.

(** [d[key] = value]. *)
Fixpoint dict_set (d : list (string * V)) (key : string) (value : V)
    : list (string * V) :=
  match d with
  | [] => [(key, value)]
  | (k, v) :: rest =>
      if String.eqb k key then (k, value) :: rest
      else (k, v) :: dict_set rest key value
  end.
End Dict.

(** [lofarpipe.support.parset.parameterset], as far as the scripts use
    it: the three typed getters.  The class is not part of the
    repository; [None] stands for the [RuntimeError] of a key that the
    parset file does not define. *)
Record parameterset : Type := mkParameterset {
  getString : string -> option string;
  getInt : string -> option Z;
  getFloat : string -> option R
}.

(** *** trap/inject.py *)

Module Inject.

Inductive pytype : Type :=
| str
| int
| float.

(** [getattr(parset, type_mapping[type_])(name)]. *)
Definition type_mapping (type_ : pytype) (parset : parameterset)
    (name : string) : option pyvalue :=
  match type_ with
  | str => option_map PyStr (getString parset name)
  | int => option_map PyInt (getInt parset name)
  | float => option_map PyFloat (getFloat parset name)
  end.

(** The table [parset_fields], in the order of the source text. *)
Definition parset_fields : list (string * (pytype * string)) :=
  [ ("taustart_ts", (str, "DATE-OBS"));
    ("freq_eff", (float, "RESTFRQ"));
    ("freq_bw", (float, "RESTBW"));
    ("endtime", (str, "END_UTC"));
    ("antenna_set", (str, "ANTENNA"));
    ("subbands", (int, "SUBBANDS"));
    ("channels", (int, "CHANNELS"));
    ("ncore", (int, "NCORE"));
    ("nremote", (int, "NREMOTE"));
    ("nintl", (int, "NINTL"));
    ("position", (int, "POSITION"));
    ("subbandwidth", (float, "SUBBANDW"));
    ("bmaj", (float, "BMAJ"));
    ("bmin", (float, "BMIN"));
    ("bpa", (float, "BPA")) ]%string.

(** The body of the loop of [parse_parset]: a getter that raises
    [RuntimeError] leaves [parsed] as it is. *)
Definition parse_parset_step (parset : parameterset)
    (parsed : list (string * pyvalue)) (item : string * (pytype * string))
    : list (string * pyvalue) :=
  let '(name, (type_, fits_field)) := item in
  match type_mapping type_ parset name with
  | Some value => dict_set parsed name value
  | None => parsed
  end.

(** The dictionary is walked with [parset_fields.items()], whose order
    Python does not fix: the loops take the list of items they walk. *)
Definition parse_parset_over (items : list (string * (pytype * string)))
    (parset : parameterset) : list (string * pyvalue) :=
  fold_left (parse_parset_step parset) items [].

Definition parse_parset (parset : parameterset) : list (string * pyvalue) :=
  parse_parset_over parset_fields parset.

(** The body of the loop of [modify_headers], on the header and the
    lines printed so far, each line as the pair [(parset_field, value)]. *)
Definition modify_headers_step (parset : list (string * pyvalue))
    (state : list (string * pyvalue) * list (string * pyvalue))
    (item : string * (pytype * string))
    : list (string * pyvalue) * list (string * pyvalue) :=
  let '(header, printed) := state in
  let '(parset_field, (type_, fits_field)) := item in
  match dict_get parset parset_field with
  | Some value =>
      (dict_set header fits_field value, (printed ++ [(parset_field, value)])%list)
  | None => (header, printed)
  end.

(** [modify_headers]: the header of HDU 0 after the loop, and the lines
    printed. *)
Definition modify_headers_over (items : list (string * (pytype * string)))
    (parset : list (string * pyvalue)) (header : list (string * pyvalue))
    : list (string * pyvalue) * list (string * pyvalue) :=
  fold_left (modify_headers_step parset) items (header, []).

Definition modify_headers (parset : list (string * pyvalue))
    (header : list (string * pyvalue))
    : list (string * pyvalue) * list (string * pyvalue) :=
  modify_headers_over parset_fields parset header.

(** [main], after the command line is parsed: the parset file read into
    [parset_file], the header of the FITS file in [header]. *)
Definition main (parset_file : parameterset) (header : list (string * pyvalue))
    : list (string * pyvalue) * list (string * pyvalue) :=
  modify_headers (parse_parset parset_file) header.

Definition set_lofar (header : list (string * pyvalue)) :=
  dict_set header "TELESCOP" (PyStr "LOFAR").
Definition set_taustart_ts (header : list (string * pyvalue)) (value : pyvalue) :=
  dict_set header "DATE-OBS" value.
Definition set_freq_eff (header : list (string * pyvalue)) (value : pyvalue) :=
  dict_set header "RESTFRQ" value.
Definition set_freq_bw (header : list (string * pyvalue)) (value : pyvalue) :=
  dict_set header "RESTBW" value.
Definition set_endtime (header : list (string * pyvalue)) (value : pyvalue) :=
  dict_set header "END_UTC" value.
Definition set_antenna_set (header : list (string * pyvalue)) (value : pyvalue) :=
  dict_set header "ANTENNA" value.
Definition set_subbands (header : list (string * pyvalue)) (value : pyvalue) :=
  dict_set header "SUBBANDS" value.
Definition set_channels (header : list (string * pyvalue)) (value : pyvalue) :=
  dict_set header "CHANNELS" value.
Definition set_ncore (header : list (string * pyvalue)) (value : pyvalue) :=
  dict_set header "NCORE" value.
Definition set_nremote (header : list (string * pyvalue)) (value : pyvalue) :=
  dict_set header "NREMOTE" value.
Definition set_nintl (header : list (string * pyvalue)) (value : pyvalue) :=
  dict_set header "NINTL" value.
Definition set_centre_decl (header : list (string * pyvalue)) (value : pyvalue) :=
  header.
Definition set_centre_ra (header : list (string * pyvalue)) (value : pyvalue) :=
  header.
Definition set_position (header : list (string * pyvalue)) (value : pyvalue) :=
  dict_set header "POSITION" value.
Definition set_subbandwidth (header : list (string * pyvalue)) (value : pyvalue) :=
  dict_set header "SUBBANDW" value.
Definition set_bmaj (header : list (string * pyvalue)) (value : pyvalue) :=
  dict_set header "BMAJ" value.
Definition set_bmin (header : list (string * pyvalue)) (value : pyvalue) :=
  dict_set header "BMIN" value.
Definition set_bpa (header : list (string * pyvalue)) (value : pyvalue) :=
  dict_set header "BPA" value.

(** The setters that take a value, by the parset field in their name. *)
Definition setters
    : list (string * (list (string * pyvalue) -> pyvalue -> list (string * pyvalue))) :=
  [ ("taustart_ts", set_taustart_ts); ("freq_eff", set_freq_eff);
    ("freq_bw", set_freq_bw); ("endtime", set_endtime);
    ("antenna_set", set_antenna_set); ("subbands", set_subbands);
    ("channels", set_channels); ("ncore", set_ncore);
    ("nremote", set_nremote); ("nintl", set_nintl);
    ("centre_decl", set_centre_decl); ("centre_ra", set_centre_ra);
    ("position", set_position); ("subbandwidth", set_subbandwidth);
    ("bmaj", set_bmaj); ("bmin", set_bmin); ("bpa", set_bpa) ]%string.

End Inject.

(** *** tkp/steps/classification.py *)

Module Classification.

(** A value of the [transient] dictionary: a plain value, or the
    dictionary of weights stored under ['classification']. *)
Inductive tvalue : Type :=
| Plain (v : pyvalue)
| Weights (w : list (string * R)).

(** [parse_parset]: the one-entry dictionary.  The parset class here is
    [tkp.utility.parset.Parset], which is not under src/; it is read
    through [getFloat] like the [parameterset] above, and a file without
    the key makes [getFloat] raise. *)
Definition parse_parset (parset_file : parameterset)
    : py_outcome (list (string * R)) :=
  match getFloat parset_file "weighting_cutoff" with
  | Some cutoff => Ok [("weighting_cutoff"%string, cutoff)]
  | None => Raises RuntimeError
  end.

(** The loop over [results.iteritems()], on the dictionary under
    ['classification']. *)
Fixpoint classify_loop (parset : list (string * R))
    (results : list (string * R)) (classification : list (string * R))
    : py_outcome (list (string * R)) :=
  match results with
  | [] => Ok classification
  | (key, value) :: rest =>
      match dict_get parset "weight_cutoff" with
      | None => Raises (KeyError "weight_cutoff")
      | Some cutoff =>
          classify_loop parset rest
            (if Rltb cutoff value then dict_set classification key value
             else classification)
      end
  end.

Section Classify.

(** [Classifier(transient).classify()], from
    [tkp.classification.manual.classifier], which is not under src/: a
    parameter, taken not to change [transient]. *)
Variable classifier : list (string * tvalue) -> list (string * R).

(** [classify] changes the dictionary it is given: the first component
    is [transient] as the call leaves it, also when it raises. *)
Definition classify (transient : list (string * tvalue))
    (parset : list (string * R))
    : list (string * tvalue) * py_outcome (list (string * tvalue)) :=
  match dict_get transient "runcat" with
  | None => (transient, Raises (KeyError "runcat"))
  | Some _ =>
      match dict_get transient "band" with
      | None => (transient, Raises (KeyError "band"))
      | Some _ =>
          let results := classifier transient in
          let cleared := dict_set transient "classification" (Weights []) in
          match classify_loop parset results [] with
          | Raises e => (cleared, Raises e)
          | Ok classification =>
              let classified :=
                dict_set cleared "classification" (Weights classification) in
              (classified, Ok classified)
          end
      end
  end.

End Classify.

End Classification.

(** *** trap/recipes/master/quality_check.py *)

Module QualityCheck.

(** [ComputeJob(host, command, arguments=[image, dataset_id])]. *)
Record ComputeJob : Type := mkJob {
  job_host : string;
  job_command : string;
  job_image : string;
  job_dataset_id : option Z
}.

(** [itertools.cycle] over a list: what is left of the current round and
    the saved elements. *)
Record cycle_state : Type := mkCycle {
  pending : list string;
  saved : list string
}.

Definition cycle (nodes : list string) : cycle_state :=
  {| pending := nodes; saved := nodes |}.

(** [hosts.next()]. *)
Definition next (hosts : cycle_state) : py_outcome (string * cycle_state) :=
  match pending hosts with
  | host :: rest => Ok (host, {| pending := rest; saved := saved hosts |})
  | [] =>
      match saved hosts with
      | [] => Raises StopIteration
      | host :: rest => Ok (host, {| pending := rest; saved := saved hosts |})
      end
  end.

(** [for image in images: host = hosts.next(); jobs.append(...)]. *)
Fixpoint go_loop (hosts : cycle_state) (command : string)
    (dataset_id : option Z) (images : list string)
    : py_outcome (list ComputeJob) :=
  match images with
  | [] => Ok []
  | image :: rest =>
      match next hosts with
      | Raises e => Raises e
      | Ok (host, hosts') =>
          match go_loop hosts' command dataset_id rest with
          | Raises e => Raises e
          | Ok jobs =>
              Ok ({| job_host := host; job_command := command;
                     job_image := image; job_dataset_id := dataset_id |}
                  :: jobs)
          end
      end
  end.

(** The jobs [go] hands to [_schedule_jobs] (lines 46-59), given the list
    [nodes] of compute nodes. *)
Definition go_jobs (nodes : list string) (command : string)
    (dataset_id : option Z) (images : list string)
    : py_outcome (list ComputeJob) :=
  go_loop (cycle nodes) command dataset_id images.

End QualityCheck.

(** ** Sample data *)

(** Modelled from the spec: the body of the inflation function ([alpha]
    in SQL, [alpha_inflate] in Python) is not under src/.  Spec 4.1 step
    2: it converts an east-west angular distance to an RA distance at the
    given declination and grows without bound towards the poles.  It
    only instantiates the parameter of the model in the closed examples
    below. *)
Definition alpha_model (theta decl : R) : R := theta / cos (RADIANS decl).

Definition empty_db : database :=
  {| extractedsource := [];
     extractedsource_seq := 1;
     assocxtrsource := [];
     images := [];
     frequencyband := [];
     runningcatalog := [];
     catalogedsource := [];
     catalog := [] |}.

(** Detection A of the end-to-end scenario of the spec; the fields the
    scenario leaves open are set to 1. *)
Definition detection_A : detection :=
  {| d_ra := 10; d_decl := 45;
     d_ra_fit_err := 1 / 1000; d_decl_fit_err := 1 / 1000;
     d_peak_flux := 1; d_peak_flux_err := 1;
     d_int_flux := 1; d_int_flux_err := 1;
     d_sigma := 1;
     d_beam_maj := 1; d_beam_min := 1; d_beam_pa := 1;
     d_ew_sys_err := 1; d_ns_sys_err := 1;
     d_error_radius := Finite (1 / 2) |}.

(** A stored row at the position of detection A, with the uncertainties
    the insert computes for it, in a given image and with a given
    [extract_type]. *)
Definition sample_xtrsrc (image_id tag : Z) : xtrsrc :=
  {| ex_ra := 10; ex_decl := 45;
     ex_ra_fit_err := 1 / 1000; ex_decl_fit_err := 1 / 1000;
     ex_f_peak := 1; ex_f_peak_err := 1;
     ex_f_int := 1; ex_f_int_err := 1;
     ex_det_sigma := 1;
     ex_semimajor := 1; ex_semiminor := 1; ex_pa := 1;
     ex_ew_sys_err := 1; ex_ns_sys_err := 1;
     ex_error_radius := 1 / 2;
     ex_ra_err := 1 / 1000; ex_decl_err := 1 / 1000;
     ex_uncertainty_ew := sqrt (1 ^ 2 + (1 / 2) ^ 2) / 3600;
     ex_uncertainty_ns := sqrt (1 ^ 2 + (1 / 2) ^ 2) / 3600;
     ex_image := image_id;
     ex_zone := 45;
     ex_x := cos (RADIANS 45) * cos (RADIANS 10);
     ex_y := cos (RADIANS 45) * sin (RADIANS 10);
     ex_z := sin (RADIANS 45);
     ex_racosdecl := 10 * cos (RADIANS 45);
     ex_extract_type := tag |}.

(** Image 1 holding a blind detection (id 1) and a user-entry forced fit
    (id 2, [extract_type] 3) at the same position. *)
Definition user_entry_db : database :=
  set_extractedsource empty_db
    [ {| ex_id := 1; ex_cols := sample_xtrsrc 1 0 |};
      {| ex_id := 2; ex_cols := sample_xtrsrc 1 3 |} ] 3.

(** The light-curve scenario of the spec: one running source (1) with
    three detections at start times 100 < 200 < 300, stored in the order
    300, 100, 200. *)
Definition lightcurve_db : database :=
  {| extractedsource :=
       [ {| ex_id := 1; ex_cols := sample_xtrsrc 3 0 |};
         {| ex_id := 2; ex_cols := sample_xtrsrc 1 0 |};
         {| ex_id := 3; ex_cols := sample_xtrsrc 2 0 |} ];
     extractedsource_seq := 4;
     assocxtrsource :=
       [ {| ax_runcat := 1; ax_xtrsrc := 1 |};
         {| ax_runcat := 1; ax_xtrsrc := 2 |};
         {| ax_runcat := 1; ax_xtrsrc := 3 |} ];
     images :=
       [ {| im_id := 1; im_taustart_ts := 100; im_tau_time := 10;
            im_band := 1; im_stokes := 1 |};
         {| im_id := 2; im_taustart_ts := 200; im_tau_time := 10;
            im_band := 1; im_stokes := 1 |};
         {| im_id := 3; im_taustart_ts := 300; im_tau_time := 10;
            im_band := 1; im_stokes := 1 |} ];
     frequencyband := [ {| bd_id := 1; bd_freq_central := 150 |} ];
     runningcatalog := [];
     catalogedsource := [];
     catalog := [] |}.

(** A running source on the equator at RA 0. *)
Definition running_source : runningcatalog_row :=
  {| r_id := 1;
     wm_ra := 0; wm_decl := 0;
     wm_uncertainty_ew := 1 / 100; wm_uncertainty_ns := 1 / 100;
     r_x := 1; r_y := 0; r_z := 0 |}.

(** A catalog source of catalog 1 at a given position, with its zone and
    unit vector. *)
Definition catalog_source (cid : Z) (ra decl : R) : catalogedsource_row :=
  {| c_id := cid;
     c_catsrcname := "B";
     c_catalog := 1;
     c_ra := ra; c_decl := decl;
     c_uncertainty_ew := 1 / 100; c_uncertainty_ns := 1 / 100;
     c_zone := FLOOR decl;
     c_x := cos (RADIANS decl) * cos (RADIANS ra);
     c_y := cos (RADIANS decl) * sin (RADIANS ra);
     c_z := sin (RADIANS decl) |}.

(** One running source and three catalog sources: one at the same
    position, one 0.01 degree to the west, across RA 0/360, and one in
    the corner of the 0.03 degree box around the running source. *)
Definition catalog_db : database :=
  {| extractedsource := [];
     extractedsource_seq := 1;
     assocxtrsource := [];
     images := [];
     frequencyband := [];
     runningcatalog := [ running_source ];
     catalogedsource :=
       [ catalog_source 1 0 0; catalog_source 2 (35999 / 100) 0;
         catalog_source 3 (3 / 100) (3 / 100) ];
     catalog := [ {| k_id := 1; k_name := "NVSS" |} ] |}.




(** Image 1 after the blind extraction and the forced fit at a null
    detection both reported detection A. *)
Definition blind_then_null_db : database :=
  store (insert_extracted_sources alpha_model
           (store (insert_extracted_sources alpha_model empty_db 1
                     [detection_A] "blind"))
           1 [detection_A] "ff_nd").

(** ** Properties of the bulk insert *)

Lemma extract_type_tag_cases (extract : string) :
  (extract = "blind"%string /\ extract_type_tag extract = Returned 0%Z) \/
  (extract = "ff_nd"%string /\ extract_type_tag extract = Returned 1%Z) \/
  (extract = "ff_ms"%string /\ extract_type_tag extract = Returned 2%Z) \/
  (extract <> "blind"%string /\ extract <> "ff_nd"%string /\
   extract <> "ff_ms"%string /\
   extract_type_tag extract =
     Raised (ValueError
       ("Not a valid extractedsource insert type: '" ++ extract ++ "'")%string)).
Proof.
  unfold extract_type_tag.
  destruct (String.eqb_spec extract "blind"); [ now left | ].
  destruct (String.eqb_spec extract "ff_nd"); [ now right; left | ].
  destruct (String.eqb_spec extract "ff_ms"); [ now right; right; left | ].
  now right; right; right.
Qed.

Lemma enriched_tag alpha_inflate image_id extract src :
  match extract_type_tag extract with
  | Returned tag =>
      exists r, enriched alpha_inflate image_id extract src = Returned r /\
                ex_extract_type r = tag /\ ex_image r = image_id
  | Raised e => enriched alpha_inflate image_id extract src = Raised e
  end.
Proof.
  unfold enriched.
  destruct (eq_to_cart (d_ra src) (d_decl src)) as [[cx cy] cz].
  destruct (extract_type_tag extract) as [tag | e]; simpl.
  - eexists; split; [ reflexivity | split; reflexivity ].
  - reflexivity.
Qed.

Lemma build_xtrsrc_tag alpha_inflate image_id extract results :
  match extract_type_tag extract with
  | Returned tag =>
      exists values,
        build_xtrsrc alpha_inflate image_id extract results = Returned values /\
        List.length values = List.length results /\
        Forall (fun r => ex_extract_type r = tag /\ ex_image r = image_id) values
  | Raised e =>
      results <> [] ->
      build_xtrsrc alpha_inflate image_id extract results = Raised e
  end.
Proof.
  destruct (extract_type_tag extract) as [tag | e] eqn:Htag.
  - induction results as [| src rest IH]; simpl.
    + exists []; repeat split; constructor.
    + pose proof (enriched_tag alpha_inflate image_id extract src) as Hsrc.
      rewrite Htag in Hsrc. destruct Hsrc as (r & Hr & Ht & Hi).
      destruct IH as (rs & Hrs & Hlen & Hall).
      exists (r :: rs). rewrite Hr, Hrs; simpl.
      repeat split; [ now rewrite Hlen | now constructor ].
  - intros Hne. destruct results as [| src rest]; [ contradiction | ].
    simpl. pose proof (enriched_tag alpha_inflate image_id extract src) as Hsrc.
    rewrite Htag in Hsrc. now rewrite Hsrc.
Qed.

Lemma with_ids_cols next values : map ex_cols (with_ids next values) = values.
Proof.
  revert next; induction values as [| v vs IH]; intros next; simpl;
    [ reflexivity | now rewrite IH ].
Qed.

Lemma with_ids_range next values row :
  In row (with_ids next values) ->
  (next <= ex_id row < next + Z.of_nat (List.length values))%Z.
Proof.
  revert next; induction values as [| v vs IH]; intros next; simpl.
  - contradiction.
  - intros [<- | Hin]; simpl; [ lia | ].
    apply IH in Hin. lia.
Qed.

Lemma with_ids_NoDup next values : NoDup (map ex_id (with_ids next values)).
Proof.
  revert next; induction values as [| v vs IH]; intros next; simpl.
  - constructor.
  - constructor; [ | apply IH ].
    intros Hin. apply in_map_iff in Hin. destruct Hin as (row & Hid & Hin).
    apply with_ids_range in Hin. lia.
Qed.

(** C9: a bulk insert of zero detections leaves the store as it was,
    returns normally (no exception) and its only report is the log line
    saying that no sources were added. *)
Theorem insert_zero_detections_is_noop alpha_inflate db image_id extract :
  let out := insert_extracted_sources alpha_inflate db image_id [] extract in
  store out = db /\
  result out = Returned tt /\
  logged out = [NoSourcesAdded extract image_id].
Proof.
  cbn. repeat split.
Qed.

(** C6: a non-empty bulk insert with a tag other than blind, ff_nd and
    ff_ms raises the ValueError and leaves the store untouched; with one
    of the three tags it returns, and the table grows by one row per
    detection, each carrying the numeric tag 0, 1 or 2 of its extract
    type. *)
Theorem insert_checks_extract_type alpha_inflate db image_id results extract :
  results <> [] ->
  let out := insert_extracted_sources alpha_inflate db image_id results extract in
  (extract <> "blind"%string -> extract <> "ff_nd"%string ->
   extract <> "ff_ms"%string ->
   result out =
     Raised (ValueError
       ("Not a valid extractedsource insert type: '" ++ extract ++ "'")%string) /\
   store out = db) /\
  (forall tag : Z,
     (extract = "blind"%string /\ tag = 0%Z) \/
     (extract = "ff_nd"%string /\ tag = 1%Z) \/
     (extract = "ff_ms"%string /\ tag = 2%Z) ->
     result out = Returned tt /\
     exists rows,
       extractedsource (store out) = (extractedsource db ++ rows)%list /\
       List.length rows = List.length results /\
       Forall (fun row : extractedsource_row => ex_extract_type row = tag) rows).
Proof.
  intros Hne out.
  pose proof (build_xtrsrc_tag alpha_inflate image_id extract results) as Hbuild.
  assert (Hout : out =
            match build_xtrsrc alpha_inflate image_id extract results with
            | Raised e => mkRun db [] (Raised e)
            | Returned values =>
                let '(db', insert_num) := INSERT_INTO_extractedsource db values in
                mkRun db' (insert_log extract insert_num image_id) (Returned tt)
            end).
  { subst out. unfold insert_extracted_sources.
    destruct results; [ contradiction | reflexivity ]. }
  split.
  - intros Hb Hn Hm.
    destruct (extract_type_tag_cases extract)
      as [[E _] | [[E _] | [[E _] | (_ & _ & _ & Htag)]]]; try contradiction.
    rewrite Htag in Hbuild. rewrite Hout, (Hbuild Hne). split; reflexivity.
  - intros tag Htag.
    assert (Hret : extract_type_tag extract = Returned tag).
    { destruct Htag as [[-> ->] | [[-> ->] | [-> ->]]]; reflexivity. }
    rewrite Hret in Hbuild. destruct Hbuild as (values & Hvalues & Hlen & Hall).
    rewrite Hout, Hvalues. cbn. split; [ reflexivity | ].
    exists (with_ids (extractedsource_seq db) values). split; [ reflexivity | ].
    split.
    + rewrite <- Hlen.
      rewrite <- (length_map ex_cols (with_ids (extractedsource_seq db) values)).
      now rewrite with_ids_cols.
    + apply Forall_forall. intros row Hin.
      rewrite Forall_forall in Hall. apply Hall.
      rewrite <- (with_ids_cols (extractedsource_seq db) values).
      now apply in_map.
Qed.

Lemma insert_checks_extract_type_witness :
  [detection_A] <> [] /\
  result (insert_extracted_sources alpha_model empty_db 1 [detection_A] "user") =
    Raised (ValueError "Not a valid extractedsource insert type: 'user'") /\
  store (insert_extracted_sources alpha_model empty_db 1 [detection_A] "user") =
    empty_db.
Proof.
  split; [ discriminate | ].
  apply (insert_checks_extract_type alpha_model empty_db 1 [detection_A] "user");
    discriminate.
Defined.

Lemma quadrature_bound (sys_err radius : R) :
  radius ^ 2 <= (3600 * (sqrt (sys_err ^ 2 + radius ^ 2) / 3600)) ^ 2.
Proof.
  replace (3600 * (sqrt (sys_err ^ 2 + radius ^ 2) / 3600))
    with (sqrt (sys_err ^ 2 + radius ^ 2)) by field.
  rewrite pow2_sqrt by nra. nra.
Qed.

(** C5 (as amended): the stored uncertainties are the quadrature sums of
    the systematic error and the substituted error radius, divided by
    3600; brought back to arcseconds (times 3600) their squares are at
    least the square of the stored error radius. *)
Theorem uncertainty_dominates_error_radius alpha_inflate image_id extract src r :
  enriched alpha_inflate image_id extract src = Returned r ->
  ex_error_radius r = substitute_inf (d_error_radius src) 360 /\
  ex_uncertainty_ew r = sqrt (d_ew_sys_err src ^ 2 + ex_error_radius r ^ 2) / 3600 /\
  ex_uncertainty_ns r = sqrt (d_ns_sys_err src ^ 2 + ex_error_radius r ^ 2) / 3600 /\
  (3600 * ex_uncertainty_ew r) ^ 2 >= ex_error_radius r ^ 2 /\
  (3600 * ex_uncertainty_ns r) ^ 2 >= ex_error_radius r ^ 2.
Proof.
  unfold enriched.
  destruct (eq_to_cart (d_ra src) (d_decl src)) as [[cx cy] cz].
  destruct (extract_type_tag extract) as [tag | e]; unfold bind; [ | discriminate ].
  intros H; injection H as <-. cbn [ex_error_radius ex_uncertainty_ew ex_uncertainty_ns].
  repeat split; apply Rle_ge, quadrature_bound.
Qed.

Lemma enriched_detection_A :
  exists r, enriched alpha_model 1 "blind" detection_A = Returned r /\
            ex_ew_sys_err r = 1 /\ ex_ns_sys_err r = 1 /\ ex_error_radius r = 1 / 2 /\
            ex_uncertainty_ew r = sqrt (1 ^ 2 + (1 / 2) ^ 2) / 3600 /\
            ex_uncertainty_ns r = sqrt (1 ^ 2 + (1 / 2) ^ 2) / 3600.
Proof.
  unfold enriched.
  destruct (eq_to_cart (d_ra detection_A) (d_decl detection_A)) as [[cx cy] cz].
  unfold bind; cbn [extract_type_tag String.eqb Ascii.eqb Bool.eqb].
  eexists. split; [ reflexivity | ]. cbn [ex_ew_sys_err ex_ns_sys_err
    ex_error_radius ex_uncertainty_ew ex_uncertainty_ns detection_A d_ew_sys_err
    d_ns_sys_err d_error_radius substitute_inf]. repeat split.
Qed.

Lemma uncertainty_dominates_error_radius_witness :
  exists r, enriched alpha_model 1 "blind" detection_A = Returned r /\
            (3600 * ex_uncertainty_ew r) ^ 2 >= ex_error_radius r ^ 2.
Proof.
  destruct enriched_detection_A as (r & Hr & _).
  exists r. split; [ exact Hr | ].
  apply (uncertainty_dominates_error_radius alpha_model 1 "blind" detection_A r Hr).
Defined.

(** C5 (counterexample): for detection A (systematic errors 1 arcsec,
    error radius 0.5 arcsec) the squares of the stored uncertainties, which
    are in degrees, are below the square of the error radius. *)
Lemma uncertainty_below_error_radius :
  exists r, enriched alpha_model 1 "blind" detection_A = Returned r /\
            ex_uncertainty_ew r ^ 2 < ex_error_radius r ^ 2 /\
            ex_uncertainty_ns r ^ 2 < ex_error_radius r ^ 2.
Proof.
  destruct enriched_detection_A as (r & Hr & _ & _ & Her & Hew & Hns).
  exists r. split; [ exact Hr | ].
  rewrite Hew, Hns, Her.
  assert (H : (sqrt (1 ^ 2 + (1 / 2) ^ 2) / 3600) ^ 2 < (1 / 2) ^ 2).
  { replace ((sqrt (1 ^ 2 + (1 / 2) ^ 2) / 3600) ^ 2)
      with (sqrt (1 ^ 2 + (1 / 2) ^ 2) ^ 2 / 3600 ^ 2) by field.
    rewrite pow2_sqrt by lra. lra. }
  split; exact H.
Qed.

(** ** Properties of the removal of forced fits with a counterpart *)

Lemma Rltb_true (a b : R) : Rltb a b = true <-> a < b.
Proof. unfold Rltb. destruct (Rlt_dec a b); split; intros; easy. Qed.

Lemma Rleb_true (a b : R) : Rleb a b = true <-> a <= b.
Proof. unfold Rleb. destruct (Rle_dec a b); split; intros; easy. Qed.

Lemma BETWEEN_true (v lo hi : R) : BETWEEN v lo hi = true <-> lo <= v <= hi.
Proof. unfold BETWEEN. now rewrite andb_true_iff, !Rleb_true. Qed.

Lemma BETWEEN_INT_true (v lo hi : Z) :
  BETWEEN_INT v lo hi = true <-> (lo <= v <= hi)%Z.
Proof. unfold BETWEEN_INT. now rewrite andb_true_iff, !Z.leb_le. Qed.

Lemma existsb_Zeqb (n : Z) (l : list Z) : existsb (Z.eqb n) l = true <-> In n l.
Proof.
  rewrite existsb_exists. split.
  - intros (m & Hin & Heq). apply Z.eqb_eq in Heq. now subst.
  - intros Hin. exists n. split; [ exact Hin | apply Z.eqb_refl ].
Qed.

Lemma NoDup_map_eq {A B : Type} (f : A -> B) (l : list A) (a b : A) :
  NoDup (map f l) -> In a l -> In b l -> f a = f b -> a = b.
Proof.
  induction l as [| c l IH]; simpl; [ contradiction | ].
  intros Hnd Ha Hb Hf. inversion Hnd as [| ? ? Hnotin Hnd']; subst.
  destruct Ha as [-> | Ha], Hb as [-> | Hb]; trivial.
  - exfalso. apply Hnotin. rewrite Hf. now apply in_map.
  - exfalso. apply Hnotin. rewrite <- Hf. now apply in_map.
  - now apply IH.
Qed.

Lemma NoDup_map_filter {K Row : Type} (key : Row -> K) (keep : Row -> bool) :
  forall rows : list Row,
    NoDup (map key rows) -> NoDup (map key (filter keep rows)).
Proof.
  intros rows. induction rows as [| row rows IH]; simpl; [ trivial | ].
  intros Hnd. inversion Hnd as [| ? ? Hfresh Hnd']; subst.
  destruct (keep row); simpl; [ | now apply IH ].
  constructor; [ | now apply IH ].
  intros Hin. apply Hfresh. apply in_map_iff in Hin.
  destruct Hin as (other & Hkey & Hin). apply filter_In in Hin.
  rewrite <- Hkey. now apply in_map.
Qed.

Lemma filter_ud_where_true alpha image_id theta deRuiter_r
    (x0 x1 : extractedsource_row) :
  filter_ud_where alpha image_id theta deRuiter_r x0 x1 = true <->
  ex_image x0 = image_id /\ ex_extract_type x0 = 3%Z /\
  ex_image x1 = image_id /\ In (ex_extract_type x1) [0; 1; 2]%Z /\
  filter_ud_counterpart alpha theta deRuiter_r x0 x1 = true.
Proof.
  unfold filter_ud_where.
  rewrite !andb_true_iff, !Z.eqb_eq, existsb_Zeqb. tauto.
Qed.

Lemma in_filter_ud_subquery alpha db image_id theta deRuiter_r (i : Z) :
  In i (filter_ud_subquery alpha db image_id theta deRuiter_r) <->
  exists x0 x1,
    In x0 (extractedsource db) /\ In x1 (extractedsource db) /\
    filter_ud_where alpha image_id theta deRuiter_r x0 x1 = true /\
    ex_id x0 = i.
Proof.
  unfold filter_ud_subquery. rewrite in_flat_map. split.
  - intros (x0 & H0 & H). rewrite in_flat_map in H. destruct H as (x1 & H1 & H).
    destruct (filter_ud_where alpha image_id theta deRuiter_r x0 x1) eqn:Hw.
    + destruct H as [<- | []]. now exists x0, x1.
    + destruct H.
  - intros (x0 & x1 & H0 & H1 & Hw & <-). exists x0. split; [ exact H0 | ].
    rewrite in_flat_map. exists x1. split; [ exact H1 | ].
    rewrite Hw. now left.
Qed.

Lemma in_DELETE_kept (ids : list Z) (rows : list extractedsource_row) row :
  In row (fst (DELETE_WHERE_id_IN ids rows)) <->
  In row rows /\ ~ In (ex_id row) ids.
Proof.
  unfold DELETE_WHERE_id_IN; cbn [fst]. rewrite filter_In, negb_true_iff.
  rewrite <- existsb_Zeqb, not_true_iff_false. tauto.
Qed.

Lemma DELETE_kept_or_listed (ids : list Z) (rows : list extractedsource_row) row :
  In row rows ->
  In row (fst (DELETE_WHERE_id_IN ids rows)) \/ In (ex_id row) ids.
Proof.
  intros Hin. destruct (existsb (Z.eqb (ex_id row)) ids) eqn:E.
  - right. now apply existsb_Zeqb.
  - left. apply in_DELETE_kept. split; [ exact Hin | ].
    rewrite <- existsb_Zeqb, E. discriminate.
Qed.

Lemma filter_ud_store alpha db image_id deRuiter_r assoc_theta :
  extractedsource
    (store (filter_userdetections_extracted_sources alpha db image_id
              deRuiter_r assoc_theta)) =
  fst (DELETE_WHERE_id_IN
         (filter_ud_subquery alpha db image_id (assoc_theta_arg assoc_theta)
            deRuiter_r)
         (extractedsource db)).
Proof. reflexivity. Qed.

(** A row is deleted exactly when the subquery selects it, paired with
    some row [x1]; with identifiers a primary key, no other row is hit. *)
Lemma filter_ud_selected alpha db image_id deRuiter_r assoc_theta row :
  wf_db db -> In row (extractedsource db) ->
  In (ex_id row)
     (filter_ud_subquery alpha db image_id (assoc_theta_arg assoc_theta)
        deRuiter_r) <->
  exists x1, In x1 (extractedsource db) /\
    filter_ud_where alpha image_id (assoc_theta_arg assoc_theta) deRuiter_r
      row x1 = true.
Proof.
  intros [Hnd _] Hin. rewrite in_filter_ud_subquery. split.
  - intros (x0 & x1 & H0 & H1 & Hw & Hid).
    assert (x0 = row) as -> by (eapply NoDup_map_eq; eauto).
    now exists x1.
  - intros (x1 & H1 & Hw). now exists row, x1.
Qed.

Lemma insert_store_rows alpha_inflate db image_id results extract row :
  In row (extractedsource
            (store (insert_extracted_sources alpha_inflate db image_id
                      results extract))) ->
  In row (extractedsource db) \/
  (In (ex_extract_type row) [0; 1; 2]%Z /\ ex_image row = image_id /\
   (extractedsource_seq db <= ex_id row)%Z).
Proof.
  unfold insert_extracted_sources.
  destruct results as [| src rest]; [ now left | ].
  pose proof (build_xtrsrc_tag alpha_inflate image_id extract (src :: rest))
    as Hbuild.
  destruct (extract_type_tag_cases extract)
    as [[_ E] | [[_ E] | [[_ E] | (_ & _ & _ & E)]]]; rewrite E in Hbuild.
  4: { rewrite Hbuild by discriminate. now left. }
  all: destruct Hbuild as (values & -> & _ & Hall); cbn;
    rewrite in_app_iff; intros [Hold | Hnew]; [ now left | right ];
    pose proof (with_ids_range _ _ _ Hnew) as Hrange;
    rewrite Forall_forall in Hall;
    assert (Hcols : In (ex_cols row) values)
      by (rewrite <- (with_ids_cols (extractedsource_seq db) values);
          now apply in_map);
    destruct (Hall _ Hcols) as [Ht Hi]; rewrite Ht; simpl; intuition lia.
Qed.

Lemma insert_preserves_wf alpha_inflate db image_id results extract :
  wf_db db ->
  wf_db (store (insert_extracted_sources alpha_inflate db image_id results
                  extract)).
Proof.
  intros [Hnd Hlt]. unfold insert_extracted_sources.
  destruct results as [| src rest]; [ now split | ].
  destruct (build_xtrsrc alpha_inflate image_id extract (src :: rest))
    as [values | e]; [ | now split ].
  cbn. rewrite Forall_forall in Hlt. split; cbn.
  - rewrite map_app. apply NoDup_app; [ exact Hnd | apply with_ids_NoDup | ].
    intros i Hold Hnew. apply in_map_iff in Hold, Hnew.
    destruct Hold as (a & <- & Ha), Hnew as (b & Hab & Hb).
    apply Hlt in Ha. apply with_ids_range in Hb. lia.
  - apply Forall_forall. intros row Hin. apply in_app_iff in Hin.
    destruct Hin as [Hin | Hin].
    + apply Hlt in Hin. lia.
    + apply with_ids_range in Hin. lia.
Qed.

Lemma filter_ud_preserves_wf alpha db image_id deRuiter_r assoc_theta :
  wf_db db ->
  wf_db (store (filter_userdetections_extracted_sources alpha db image_id
                  deRuiter_r assoc_theta)).
Proof.
  intros [Hnd Hlt]. split.
  - rewrite filter_ud_store. now apply NoDup_map_filter.
  - rewrite filter_ud_store. apply Forall_forall. intros row Hin.
    apply in_DELETE_kept in Hin. rewrite Forall_forall in Hlt.
    now apply Hlt.
Qed.

Lemma enriched_columns alpha_inflate image_id extract src r :
  enriched alpha_inflate image_id extract src = Returned r ->
  ex_ra r = d_ra src /\ ex_decl r = d_decl src /\
  ex_zone r = FLOOR (d_decl src) /\ ex_image r = image_id /\
  extract_type_tag extract = Returned (ex_extract_type r).
Proof.
  unfold enriched.
  destruct (eq_to_cart (d_ra src) (d_decl src)) as [[cx cy] cz].
  destruct (extract_type_tag extract) as [tag | e]; unfold bind; [ | discriminate ].
  intros H; injection H as <-. repeat split.
Qed.

Lemma blind_then_null_rows :
  exists r0 r1,
    enriched alpha_model 1 "blind" detection_A = Returned r0 /\
    enriched alpha_model 1 "ff_nd" detection_A = Returned r1 /\
    extractedsource blind_then_null_db =
      [ {| ex_id := 1; ex_cols := r0 |}; {| ex_id := 2; ex_cols := r1 |} ].
Proof.
  pose proof (enriched_tag alpha_model 1 "blind" detection_A) as H0.
  pose proof (enriched_tag alpha_model 1 "ff_nd" detection_A) as H1.
  cbn [extract_type_tag String.eqb Ascii.eqb Bool.eqb] in H0, H1.
  destruct H0 as (r0 & Hr0 & _), H1 as (r1 & Hr1 & _).
  exists r0, r1. split; [ exact Hr0 | ]. split; [ exact Hr1 | ].
  unfold blind_then_null_db, insert_extracted_sources, build_xtrsrc.
  rewrite Hr0. cbn [bind INSERT_INTO_extractedsource store]. rewrite Hr1.
  reflexivity.
Qed.

Lemma counterpart_same_position alpha theta deRuiter_r (x0 x1 : xtrsrc) :
  ex_ra x1 = ex_ra x0 -> ex_decl x1 = ex_decl x0 ->
  ex_zone x1 = FLOOR (ex_decl x1) ->
  0 <= theta -> 0 <= alpha theta (ex_decl x0) -> 0 < deRuiter_r ->
  filter_ud_counterpart alpha theta deRuiter_r x0 x1 = true.
Proof.
  intros Hra Hdecl Hzone Htheta Halpha Hcut.
  unfold filter_ud_counterpart, filter_ud_bands.
  rewrite !andb_true_iff, BETWEEN_INT_true, !BETWEEN_true, Rltb_true.
  repeat split.
  - rewrite Hzone, Hdecl. apply Zfloor_le. lra.
  - rewrite Hzone, Hdecl. apply Zfloor_le. lra.
  - lra.
  - lra.
  - lra.
  - lra.
  - unfold filter_ud_de_ruiter. rewrite Hra, Hdecl.
    match goal with |- sqrt ?e < _ => replace e with 0 by (unfold Rdiv; ring) end.
    now rewrite sqrt_0.
Qed.

Lemma alpha_model_nonneg (theta decl : R) :
  0 <= theta -> -90 < decl < 90 -> 0 <= alpha_model theta decl.
Proof.
  intros Htheta Hdecl. unfold alpha_model, RADIANS.
  pose proof PI_RGT_0 as Hpi.
  apply Rmult_le_pos; [ exact Htheta | ].
  apply Rlt_le, Rinv_0_lt_compat, cos_gt_0; nra.
Qed.

(** C7: whatever the image, the radius and the cut-off, the rows the
    removal pass deletes all have [extract_type] 3 and belong to the
    given image, the table after the pass holds no row that was not there
    before, and every row a bulk insert has just added (its
    [extract_type] is 0, 1 or 2) is still in the table after the pass. *)
Theorem filter_ud_keeps_inserted_detections alpha alpha_inflate db image_id
    results extract filter_image deRuiter_r assoc_theta :
  wf_db db ->
  let db1 :=
    store (insert_extracted_sources alpha_inflate db image_id results extract) in
  let db2 :=
    store (filter_userdetections_extracted_sources alpha db1 filter_image
             deRuiter_r assoc_theta) in
  (forall row, In row (extractedsource db1) -> ~ In row (extractedsource db2) ->
     ex_extract_type row = 3%Z /\ ex_image row = filter_image) /\
  (forall row, In row (extractedsource db2) -> In row (extractedsource db1)) /\
  (forall row, In row (extractedsource db1) -> ~ In row (extractedsource db) ->
     In (ex_extract_type row) [0; 1; 2]%Z /\ In row (extractedsource db2)).
Proof.
  intros Hwf db1 db2.
  assert (Hwf1 : wf_db db1) by now apply insert_preserves_wf.
  assert (Hdel : forall row, In row (extractedsource db1) ->
            ~ In row (extractedsource db2) ->
            ex_extract_type row = 3%Z /\ ex_image row = filter_image).
  { intros row Hin Hout. subst db2. rewrite filter_ud_store in Hout.
    destruct (DELETE_kept_or_listed
                (filter_ud_subquery alpha db1 filter_image
                   (assoc_theta_arg assoc_theta) deRuiter_r)
                (extractedsource db1) row Hin) as [Hkept | Hsel];
      [ contradiction | ].
    apply (filter_ud_selected alpha db1 filter_image deRuiter_r assoc_theta row
             Hwf1 Hin) in Hsel.
    destruct Hsel as (x1 & _ & Hw). apply filter_ud_where_true in Hw. tauto. }
  split; [ exact Hdel | ]. split.
  - intros row Hin. subst db2. rewrite filter_ud_store in Hin.
    now apply in_DELETE_kept in Hin.
  - intros row Hin Hnew.
    destruct (insert_store_rows alpha_inflate db image_id results extract row Hin)
      as [Hold | (Htag & _)]; [ contradiction | ].
    split; [ exact Htag | ].
    subst db2. rewrite filter_ud_store.
    destruct (DELETE_kept_or_listed
                (filter_ud_subquery alpha db1 filter_image
                   (assoc_theta_arg assoc_theta) deRuiter_r)
                (extractedsource db1) row Hin) as [Hkept | Hsel];
      [ exact Hkept | ].
    apply (filter_ud_selected alpha db1 filter_image deRuiter_r assoc_theta row
             Hwf1 Hin) in Hsel.
    destruct Hsel as (x1 & _ & Hw). apply filter_ud_where_true in Hw.
    destruct Hw as (_ & H3 & _). rewrite H3 in Htag.
    simpl in Htag. intuition discriminate.
Qed.

Lemma empty_db_wf : wf_db empty_db.
Proof. split; constructor. Qed.

Lemma filter_ud_keeps_inserted_detections_witness :
  wf_db empty_db /\
  forall row,
    In row (extractedsource
              (store (insert_extracted_sources alpha_model empty_db 1
                        [detection_A] "ff_nd"))) ->
    ~ In row (extractedsource empty_db) ->
    In (ex_extract_type row) [0; 1; 2]%Z /\
    In row
      (extractedsource
         (store (filter_userdetections_extracted_sources alpha_model
                   (store (insert_extracted_sources alpha_model empty_db 1
                             [detection_A] "ff_nd"))
                   1 (37 / 10) None))).
Proof.
  split; [ exact empty_db_wf | ].
  apply (filter_ud_keeps_inserted_detections alpha_model alpha_model empty_db 1
           [detection_A] "ff_nd" 1 (37 / 10) None empty_db_wf).
Defined.

(** The De Ruiter radius of the subquery, in the notation of the spec. *)
Lemma filter_ud_de_ruiter_formula (x0 x1 : xtrsrc) :
  let dra := (ex_ra x0 - ex_ra x1) * cos (RADIANS ((ex_decl x0 + ex_decl x1) / 2)) in
  let ddec := ex_decl x0 - ex_decl x1 in
  filter_ud_de_ruiter x0 x1 =
  sqrt (dra ^ 2 / (ex_uncertainty_ew x0 ^ 2 + ex_uncertainty_ew x1 ^ 2)
        + ddec ^ 2 / (ex_uncertainty_ns x0 ^ 2 + ex_uncertainty_ns x1 ^ 2)).
Proof.
  cbv zeta. unfold filter_ud_de_ruiter. apply (f_equal sqrt).
  replace (ex_uncertainty_ew x0 ^ 2 + ex_uncertainty_ew x1 ^ 2)
    with (ex_uncertainty_ew x0 * ex_uncertainty_ew x0
          + ex_uncertainty_ew x1 * ex_uncertainty_ew x1) by ring.
  replace (ex_uncertainty_ns x0 ^ 2 + ex_uncertainty_ns x1 ^ 2)
    with (ex_uncertainty_ns x0 * ex_uncertainty_ns x0
          + ex_uncertainty_ns x1 * ex_uncertainty_ns x1) by ring.
  unfold Rdiv. ring.
Qed.

(** The positional conditions of the subquery, column by column. *)
Lemma filter_ud_counterpart_true alpha theta deRuiter_r (x0 x1 : xtrsrc) :
  filter_ud_counterpart alpha theta deRuiter_r x0 x1 = true <->
  (FLOOR (ex_decl x0 - theta) <= ex_zone x1 <= FLOOR (ex_decl x0 + theta))%Z /\
  ex_decl x0 - theta <= ex_decl x1 <= ex_decl x0 + theta /\
  ex_ra x0 - alpha theta (ex_decl x0) <= ex_ra x1
    <= ex_ra x0 + alpha theta (ex_decl x0) /\
  sqrt (((ex_ra x0 - ex_ra x1)
         * cos (RADIANS ((ex_decl x0 + ex_decl x1) / 2))) ^ 2
          / (ex_uncertainty_ew x0 ^ 2 + ex_uncertainty_ew x1 ^ 2)
        + (ex_decl x0 - ex_decl x1) ^ 2
          / (ex_uncertainty_ns x0 ^ 2 + ex_uncertainty_ns x1 ^ 2)) < deRuiter_r.
Proof.
  unfold filter_ud_counterpart, filter_ud_bands.
  rewrite !andb_true_iff, BETWEEN_INT_true, !BETWEEN_true, Rltb_true.
  pose proof (filter_ud_de_ruiter_formula x0 x1) as Hformula.
  cbv zeta in Hformula. rewrite Hformula. tauto.
Qed.

(** C1 (as amended): in a table whose identifiers are a primary key and
    in which no De Ruiter expression of the subquery divides by zero, a
    row [x0] of the given image with [extract_type] 3 (a user-entry
    forced fit) is deleted when some row [x1] of the same image with
    [extract_type] 0, 1 or 2 has its zone between the floors of
    [x0.decl - theta] and [x0.decl + theta], its declination within
    [theta] of [x0.decl], its RA within [alpha(theta, x0.decl)] of
    [x0.ra], and a De Ruiter radius
    [sqrt (dra^2 / (ew0^2 + ew1^2) + ddec^2 / (ns0^2 + ns1^2))], with
    [dra] the RA difference times the cosine of the mean declination,
    strictly below the cut-off; a row with no such [x1] is kept, and so
    is every row whose [extract_type] is not 3 (a forced-null detection
    is stored with 1) or whose image is another one. *)
Theorem filter_ud_removes_user_entries alpha db image_id deRuiter_r
    assoc_theta (x0 : extractedsource_row) :
  wf_db db -> filter_ud_divides db -> In x0 (extractedsource db) ->
  let theta := assoc_theta_arg assoc_theta in
  let kept :=
    extractedsource
      (store (filter_userdetections_extracted_sources alpha db image_id
                deRuiter_r assoc_theta)) in
  let de_ruiter (x1 : extractedsource_row) :=
    sqrt (((ex_ra x0 - ex_ra x1)
           * cos (RADIANS ((ex_decl x0 + ex_decl x1) / 2))) ^ 2
            / (ex_uncertainty_ew x0 ^ 2 + ex_uncertainty_ew x1 ^ 2)
          + (ex_decl x0 - ex_decl x1) ^ 2
            / (ex_uncertainty_ns x0 ^ 2 + ex_uncertainty_ns x1 ^ 2)) in
  let counterpart (x1 : extractedsource_row) :=
    In x1 (extractedsource db) /\ ex_image x1 = image_id /\
    In (ex_extract_type x1) [0; 1; 2]%Z /\
    (FLOOR (ex_decl x0 - theta) <= ex_zone x1 <= FLOOR (ex_decl x0 + theta))%Z /\
    ex_decl x0 - theta <= ex_decl x1 <= ex_decl x0 + theta /\
    ex_ra x0 - alpha theta (ex_decl x0) <= ex_ra x1
      <= ex_ra x0 + alpha theta (ex_decl x0) /\
    de_ruiter x1 < deRuiter_r in
  (ex_image x0 = image_id -> ex_extract_type x0 = 3%Z ->
   (exists x1, counterpart x1) -> ~ In x0 kept) /\
  ((forall x1, ~ counterpart x1) -> In x0 kept) /\
  (ex_extract_type x0 <> 3%Z -> In x0 kept) /\
  (ex_image x0 <> image_id -> In x0 kept).
Proof.
  intros Hwf _ Hin theta kept de_ruiter counterpart.
  pose proof (filter_ud_selected alpha db image_id deRuiter_r assoc_theta x0
                Hwf Hin) as Hsel.
  assert (Hkeep : (forall x1, In x1 (extractedsource db) ->
                     filter_ud_where alpha image_id theta deRuiter_r x0 x1
                     <> true) -> In x0 kept).
  { intros Hno. subst kept. rewrite filter_ud_store.
    destruct (DELETE_kept_or_listed
                (filter_ud_subquery alpha db image_id theta deRuiter_r)
                (extractedsource db) x0 Hin) as [Hkept | Hlisted];
      [ exact Hkept | ].
    apply Hsel in Hlisted. destruct Hlisted as (x1 & H1 & Hw).
    now destruct (Hno x1 H1). }
  repeat split.
  - intros Himg Htype (x1 & H1 & Himg1 & Htype1 & Hc) Hkept.
    subst kept. rewrite filter_ud_store in Hkept.
    apply in_DELETE_kept in Hkept. destruct Hkept as [_ Hnot].
    apply Hnot, Hsel. exists x1. split; [ exact H1 | ].
    apply filter_ud_where_true.
    repeat (split; [ assumption | ]).
    apply filter_ud_counterpart_true. exact Hc.
  - intros Hno. apply Hkeep. intros x1 H1 Hw.
    apply filter_ud_where_true in Hw.
    destruct Hw as (_ & _ & Himg1 & Htype1 & Hc).
    apply filter_ud_counterpart_true in Hc. apply (Hno x1).
    unfold counterpart, de_ruiter. tauto.
  - intros Htype. apply Hkeep. intros x1 H1 Hw.
    apply filter_ud_where_true in Hw. tauto.
  - intros Himg. apply Hkeep. intros x1 H1 Hw.
    apply filter_ud_where_true in Hw. tauto.
Qed.

Lemma user_entry_db_wf : wf_db user_entry_db.
Proof.
  split; cbn.
  - repeat constructor; simpl; intuition discriminate.
  - repeat constructor.
Qed.

Lemma sample_counterpart (tag0 tag1 : Z) :
  filter_ud_counterpart alpha_model (3 / 100) (37 / 10)
    (sample_xtrsrc 1 tag0) (sample_xtrsrc 1 tag1) = true.
Proof.
  apply counterpart_same_position; cbn [sample_xtrsrc ex_ra ex_decl ex_zone];
    try reflexivity; try lra.
  - unfold FLOOR. now rewrite ZfloorZ.
  - apply alpha_model_nonneg; lra.
Qed.

Lemma sample_uncertainty_pos : 0 < sqrt (1 ^ 2 + (1 / 2) ^ 2) / 3600.
Proof.
  apply Rdiv_lt_0_compat; [ | lra ]. apply sqrt_lt_R0. lra.
Qed.

(** Two rows with positive uncertainties never give a zero denominator. *)
Lemma sum_of_squares_nonzero (u v : R) : 0 < u -> 0 < v -> u * u + v * v <> 0.
Proof. intros Hu Hv. nra. Qed.

Lemma user_entry_db_divides : filter_ud_divides user_entry_db.
Proof.
  pose proof sample_uncertainty_pos as Hpos.
  intros x0 x1 H0 H1.
  cbn in H0, H1.
  destruct H0 as [<- | [<- | []]], H1 as [<- | [<- | []]];
    cbn [ex_cols sample_xtrsrc ex_uncertainty_ew ex_uncertainty_ns];
    split; apply sum_of_squares_nonzero; exact Hpos.
Qed.

Lemma filter_ud_removes_user_entries_witness :
  wf_db user_entry_db /\ filter_ud_divides user_entry_db /\
  In {| ex_id := 2; ex_cols := sample_xtrsrc 1 3 |} (extractedsource user_entry_db) /\
  ~ In {| ex_id := 2; ex_cols := sample_xtrsrc 1 3 |}
       (extractedsource
          (store (filter_userdetections_extracted_sources alpha_model
                    user_entry_db 1 (37 / 10) None))).
Proof.
  assert (Hin : In {| ex_id := 2; ex_cols := sample_xtrsrc 1 3 |}
                   (extractedsource user_entry_db)) by (right; left; reflexivity).
  split; [ exact user_entry_db_wf | ].
  split; [ exact user_entry_db_divides | ]. split; [ exact Hin | ].
  destruct (filter_ud_removes_user_entries alpha_model user_entry_db 1 (37 / 10)
              None _ user_entry_db_wf user_entry_db_divides Hin)
    as [Hremoved _].
  apply Hremoved; [ reflexivity | reflexivity | ].
  exists {| ex_id := 1; ex_cols := sample_xtrsrc 1 0 |}.
  split; [ left; reflexivity | ]. split; [ reflexivity | ].
  split; [ left; reflexivity | ].
  apply (filter_ud_counterpart_true alpha_model (3 / 100) (37 / 10)
           (sample_xtrsrc 1 3) (sample_xtrsrc 1 0)).
  apply sample_counterpart.
Defined.

(** C1 (counterexample): image 1 holds detection A twice, inserted once
    as a blind detection and once as a forced fit at a null detection
    ([ff_nd], stored with [extract_type] 1).  The two rows coincide (same
    position, De Ruiter radius 0 below the cut-off 3.7, radius 0.03), yet
    the forced-null row is still in the table after the removal pass. *)
Lemma forced_null_duplicate_survives :
  exists blind null : extractedsource_row,
    In blind (extractedsource blind_then_null_db) /\
    In null (extractedsource blind_then_null_db) /\
    ex_image blind = 1%Z /\ ex_extract_type blind = 0%Z /\
    ex_image null = 1%Z /\ ex_extract_type null = 1%Z /\
    filter_ud_counterpart alpha_model (3 / 100) (37 / 10) null blind = true /\
    In null
       (extractedsource
          (store (filter_userdetections_extracted_sources alpha_model
                    blind_then_null_db 1 (37 / 10) None))).
Proof.
  destruct blind_then_null_rows as (r0 & r1 & Hr0 & Hr1 & Hrows).
  destruct (enriched_columns _ _ _ _ _ Hr0) as (Hra0 & Hdecl0 & Hzone0 & Himg0 & Htag0).
  destruct (enriched_columns _ _ _ _ _ Hr1) as (Hra1 & Hdecl1 & Hzone1 & Himg1 & Htag1).
  cbn [extract_type_tag String.eqb Ascii.eqb Bool.eqb] in Htag0, Htag1.
  injection Htag0 as Htag0. injection Htag1 as Htag1.
  exists {| ex_id := 1; ex_cols := r0 |}, {| ex_id := 2; ex_cols := r1 |}.
  rewrite Hrows. cbn [ex_cols].
  split; [ left; reflexivity | ]. split; [ right; left; reflexivity | ].
  repeat (split; [ congruence | ]).
  split.
  - apply counterpart_same_position; try congruence; try lra.
    + rewrite Hdecl1. apply alpha_model_nonneg; cbn; lra.
  - rewrite filter_ud_store. apply in_DELETE_kept. rewrite Hrows.
    split; [ right; left; reflexivity | ].
    intros Hsel. apply in_filter_ud_subquery in Hsel.
    destruct Hsel as (x0 & x1 & H0 & _ & Hw & Hid).
    apply filter_ud_where_true in Hw. destruct Hw as (_ & H3 & _).
    rewrite Hrows in H0. destruct H0 as [<- | [<- | []]]; cbn in H3, Hid.
    + discriminate.
    + congruence.
Qed.

(** ** Properties of ORDER BY *)

Section OrderByFacts.
Context {A : Type} (leb : A -> A -> bool).

Lemma insert_by_Permutation (a : A) (l : list A) :
  Permutation (insert_by leb a l) (a :: l).
Proof.
  induction l as [| b l IH]; simpl; [ reflexivity | ].
  destruct (leb a b); [ reflexivity | ].
  rewrite IH. apply perm_swap.
Qed.

Lemma ORDER_BY_Permutation (l : list A) : Permutation (ORDER_BY leb l) l.
Proof.
  induction l as [| a l IH]; simpl; [ reflexivity | ].
  rewrite insert_by_Permutation. now constructor.
Qed.

Lemma ORDER_BY_In (l : list A) (a : A) : In a (ORDER_BY leb l) <-> In a l.
Proof.
  split; apply Permutation_in;
    [ apply ORDER_BY_Permutation | symmetry; apply ORDER_BY_Permutation ].
Qed.

Hypothesis leb_total : forall a b, leb a b = true \/ leb b a = true.
Hypothesis leb_trans :
  forall a b c, leb a b = true -> leb b c = true -> leb a c = true.

Lemma insert_by_sorted (a : A) (l : list A) :
  StronglySorted (fun u v => leb u v = true) l ->
  StronglySorted (fun u v => leb u v = true) (insert_by leb a l).
Proof.
  induction 1 as [| b l Hs IH Hall]; simpl.
  - repeat constructor.
  - destruct (leb a b) eqn:Hab.
    + constructor; [ now constructor | ].
      constructor; [ exact Hab | ].
      rewrite Forall_forall in Hall |- *. intros c Hc.
      eapply leb_trans; [ exact Hab | now apply Hall ].
    + constructor; [ exact IH | ].
      rewrite Forall_forall in Hall |- *. intros c Hc.
      apply (Permutation_in _ (insert_by_Permutation a l)) in Hc.
      destruct Hc as [<- | Hc]; [ | now apply Hall ].
      destruct (leb_total a b) as [H | H]; [ congruence | exact H ].
Qed.

Lemma ORDER_BY_sorted (l : list A) :
  StronglySorted (fun u v => leb u v = true) (ORDER_BY leb l).
Proof.
  induction l as [| a l IH]; simpl; [ constructor | ].
  now apply insert_by_sorted.
Qed.
End OrderByFacts.

(** ** Properties of the light-curve query *)

Lemma lightcurve_select_length (j : lightcurve_row) :
  List.length (lightcurve_select j) = 8%nat.
Proof. destruct j as [[[ex ax] im] bd]. reflexivity. Qed.

(** Every tuple the query returns has the eight columns of the SELECT
    list. *)
Lemma lightcurve_query_arity db xtrsrc (t : tuple) :
  In t (lightcurve_query db xtrsrc) -> List.length t = 8%nat.
Proof.
  unfold lightcurve_query. intros Hin. apply in_map_iff in Hin.
  destruct Hin as (j & <- & _). apply lightcurve_select_length.
Qed.

(** The rows behind the result are in ascending order of start time. *)
Lemma lightcurve_rows_sorted db xtrsrc :
  StronglySorted (fun j1 j2 => by_taustart_ts j1 j2 = true)
    (lightcurve_rows db xtrsrc).
Proof.
  apply ORDER_BY_sorted.
  - intros [[[? ?] im1] ?] [[[? ?] im2] ?]. cbn. rewrite !Z.leb_le. lia.
  - intros [[[? ?] im1] ?] [[[? ?] im2] ?] [[[? ?] im3] ?]. cbn.
    rewrite !Z.leb_le. lia.
Qed.

(** The rows behind the result are the joined rows that satisfy the
    WHERE clause, each as often as the join yields it. *)
Lemma lightcurve_rows_complete db xtrsrc :
  Permutation (lightcurve_rows db xtrsrc)
    (filter (lightcurve_where db xtrsrc) (lightcurve_from db)).
Proof. apply ORDER_BY_Permutation. Qed.

(** C4 (evaluation at the failing input): for the three detections of
    running source 1, stored in the order 300, 100, 200, the query on
    detection 2 returns them in the order 100, 200, 300, and each tuple
    has eight components: the seven of the docstring followed by the
    central frequency of the band. *)
Example lightcurve_returns_eight_columns :
  result (lightcurve lightcurve_db 2) =
  Returned
    [ [ SqlTimestamp 100; SqlDouble 10; SqlDouble 1; SqlDouble 1;
        SqlInt 2; SqlInt 1; SqlInt 1; SqlDouble 150 ];
      [ SqlTimestamp 200; SqlDouble 10; SqlDouble 1; SqlDouble 1;
        SqlInt 3; SqlInt 1; SqlInt 1; SqlDouble 150 ];
      [ SqlTimestamp 300; SqlDouble 10; SqlDouble 1; SqlDouble 1;
        SqlInt 1; SqlInt 1; SqlInt 1; SqlDouble 150 ] ].
Proof. reflexivity. Qed.

(** C10: for an identifier that no association row mentions, the query
    returns the empty list, raises nothing and leaves the store as it
    was. *)
Theorem lightcurve_without_associations db xtrsrcid :
  (forall a, In a (assocxtrsource db) -> ax_xtrsrc a <> xtrsrcid) ->
  let out := lightcurve db xtrsrcid in
  result out = Returned [] /\ store out = db.
Proof.
  intros Hnone out. split; [ | reflexivity ].
  subst out. unfold lightcurve, lightcurve_query, lightcurve_rows.
  assert (Hrun : runcats_of db xtrsrcid = []).
  { unfold runcats_of.
    induction (assocxtrsource db) as [| a l IH]; [ reflexivity | ].
    simpl. destruct (Z.eqb_spec (ax_xtrsrc a) xtrsrcid) as [E | _].
    - exfalso. apply (Hnone a); [ now left | exact E ].
    - apply IH. intros b Hb. apply Hnone. now right. }
  assert (Hfilter : filter (lightcurve_where db xtrsrcid) (lightcurve_from db) = []).
  { induction (lightcurve_from db) as [| j l IH]; [ reflexivity | ].
    simpl. destruct j as [[[ex ax] im] bd]. unfold lightcurve_where at 1.
    rewrite Hrun. simpl. exact IH. }
  now rewrite Hfilter.
Qed.

Lemma lightcurve_without_associations_witness :
  (forall a, In a (assocxtrsource lightcurve_db) -> ax_xtrsrc a <> 7%Z) /\
  result (lightcurve lightcurve_db 7) = Returned [] /\
  store (lightcurve lightcurve_db 7) = lightcurve_db.
Proof.
  assert (H : forall a, In a (assocxtrsource lightcurve_db) -> ax_xtrsrc a <> 7%Z).
  { intros a [<- | [<- | [<- | []]]]; discriminate. }
  split; [ exact H | ].
  apply (lightcurve_without_associations lightcurve_db 7 H).
Defined.

(** ** Properties of the catalog cross-match *)

Lemma in_match_from db (r : runningcatalog_row) (c : catalogedsource_row)
    (k : catalog_row) :
  In (r, c, k) (match_from db) <->
  In r (runningcatalog db) /\ In c (catalogedsource db) /\ In k (catalog db).
Proof.
  unfold match_from. rewrite in_flat_map. split.
  - intros (r' & Hr & H). rewrite in_flat_map in H. destruct H as (c' & Hc & H).
    apply in_map_iff in H. destruct H as (k' & Heq & Hk).
    injection Heq as -> -> ->. tauto.
  - intros (Hr & Hc & Hk). exists r. split; [ exact Hr | ].
    rewrite in_flat_map. exists c. split; [ exact Hc | ].
    apply in_map_iff. now exists k.
Qed.

Lemma match_where_true alpha runcatid radius deruiter
    (r : runningcatalog_row) (c : catalogedsource_row) (k : catalog_row) :
  match_where alpha runcatid radius deruiter (r, c, k) = true <->
  r_id r = runcatid /\ match_spatial alpha radius r c = true /\
  c_catalog c = k_id k /\ WHERE_de_ruiter r c < deruiter.
Proof.
  unfold match_where. rewrite !andb_true_iff, !Z.eqb_eq, Rltb_true. tauto.
Qed.

Lemma in_match_matches alpha db runcatid radius deRuiter_r (m : match_dict) :
  In m (match_matches alpha db runcatid radius deRuiter_r) <->
  exists r c k,
    In r (runningcatalog db) /\ In c (catalogedsource db) /\ In k (catalog db) /\
    match_where alpha runcatid radius deRuiter_r (r, c, k) = true /\
    m = match_select (r, c, k).
Proof.
  unfold match_matches. rewrite in_map_iff. split.
  - intros ([[r c] k] & <- & Hin). apply filter_In in Hin.
    destruct Hin as [Hin Hw]. apply in_match_from in Hin.
    exists r, c, k. tauto.
  - intros (r & c & k & Hr & Hc & Hk & Hw & ->). exists (r, c, k).
    split; [ reflexivity | ]. apply filter_In. split; [ | exact Hw ].
    apply in_match_from. tauto.
Qed.




Lemma RADIANS_0 : RADIANS 0 = 0.
Proof. unfold RADIANS. lra. Qed.


(** Catalog and running sources with an uncertainty of 0.01 degree on
    both axes never give a zero denominator. *)
Lemma catalog_source_divides (r : runningcatalog_row) cid ra decl :
  wm_uncertainty_ew r = 1 / 100 -> wm_uncertainty_ns r = 1 / 100 ->
  wm_uncertainty_ew r * wm_uncertainty_ew r
    + c_uncertainty_ew (catalog_source cid ra decl)
      * c_uncertainty_ew (catalog_source cid ra decl) <> 0
  /\ wm_uncertainty_ns r * wm_uncertainty_ns r
     + c_uncertainty_ns (catalog_source cid ra decl)
       * c_uncertainty_ns (catalog_source cid ra decl) <> 0.
Proof.
  intros -> ->. cbn [catalog_source c_uncertainty_ew c_uncertainty_ns].
  split; lra.
Qed.

Lemma catalog_db_divides : match_divides catalog_db.
Proof.
  intros r c [<- | []] [<- | [<- | [<- | []]]];
    apply catalog_source_divides; reflexivity.
Qed.









(** ** The band prefilter across RA 0/360 *)

Lemma cos_2PI_minus (t : R) : cos (2 * PI - t) = cos t.
Proof. rewrite cos_minus, cos_2PI, sin_2PI. ring. Qed.

Lemma RADIANS_west_of_meridian :
  RADIANS (35999 / 100) = 2 * PI - RADIANS (1 / 100).
Proof. unfold RADIANS. field. Qed.

(** The unit vectors of the running source and of the catalog source
    west of the meridian are 0.01 degree apart. *)
Lemma west_source_separation :
  c_x (catalog_source 2 (35999 / 100) 0) * r_x running_source
  + c_y (catalog_source 2 (35999 / 100) 0) * r_y running_source
  + c_z (catalog_source 2 (35999 / 100) 0) * r_z running_source
  = cos (RADIANS (1 / 100)).
Proof.
  cbn [catalog_source running_source c_x c_y c_z r_x r_y r_z].
  rewrite RADIANS_0, cos_0, sin_0, RADIANS_west_of_meridian, cos_2PI_minus.
  ring.
Qed.

(** C3 (evaluation at the failing input): a running source at RA 0 and a
    catalog source at RA 359.99, both on the equator, are 0.01 degree
    apart and pass the cone test for a radius of 0.03 degree.  Whenever
    [alpha(0.03, 0)] is below 359.99 the RA band rejects the catalog
    source, so the cross-match does not return it whatever the cut-off;
    the RA band of the removal pass rejects such a pair of rows in the
    same way. *)
Theorem ra_band_excludes_source_across_meridian alpha :
  alpha (3 / 100) 0 < 35999 / 100 ->
  match_cone (3 / 100) running_source (catalog_source 2 (35999 / 100) 0) = true /\
  match_bands alpha (3 / 100) running_source (catalog_source 2 (35999 / 100) 0)
    = false /\
  (forall deRuiter_r results,
     result (match_nearests_in_catalogs alpha catalog_db 1 (3 / 100) deRuiter_r)
       = Returned results ->
     ~ In 2%Z (map catsrcid results)) /\
  (forall x0 x1 : xtrsrc,
     ex_ra x0 = 0 -> ex_decl x0 = 0 -> ex_ra x1 = 35999 / 100 ->
     filter_ud_bands alpha (3 / 100) x0 x1 = false).
Proof.
  intros Halpha.
  assert (Hbands : match_bands alpha (3 / 100) running_source
                     (catalog_source 2 (35999 / 100) 0) = false).
  { unfold match_bands. apply andb_false_iff. right.
    apply not_true_iff_false. rewrite BETWEEN_true.
    cbn [running_source catalog_source wm_ra wm_decl c_ra]. lra. }
  split; [ | split; [ exact Hbands | split ] ].
  - unfold match_cone. rewrite Rltb_true, west_source_separation.
    pose proof PI_RGT_0. apply cos_decreasing_1; unfold RADIANS; lra.
  - intros deRuiter_r results Hres Hin. injection Hres as <-.
    apply in_map_iff in Hin. destruct Hin as (m & Hid & Hin).
    apply ORDER_BY_In, in_match_matches in Hin.
    destruct Hin as (r & c & k & Hr & Hc & _ & Hw & ->).
    apply match_where_true in Hw. destruct Hw as (_ & Hspatial & _).
    destruct Hr as [<- | []]. cbn in Hid.
    destruct Hc as [<- | [<- | [<- | []]]];
      [ discriminate Hid | | discriminate Hid ].
    unfold match_spatial in Hspatial. rewrite Hbands in Hspatial.
    discriminate Hspatial.
  - intros x0 x1 Hra0 Hdecl0 Hra1. unfold filter_ud_bands.
    apply andb_false_iff. right.
    apply not_true_iff_false. rewrite BETWEEN_true, Hra0, Hdecl0, Hra1. lra.
Qed.

Lemma alpha_model_equator (theta : R) : alpha_model theta 0 = theta.
Proof. unfold alpha_model. rewrite RADIANS_0, cos_0. field. Qed.

Lemma ra_band_excludes_source_across_meridian_witness :
  alpha_model (3 / 100) 0 < 35999 / 100 /\
  match_cone (3 / 100) running_source (catalog_source 2 (35999 / 100) 0) = true /\
  match_bands alpha_model (3 / 100) running_source
    (catalog_source 2 (35999 / 100) 0) = false.
Proof.
  assert (H : alpha_model (3 / 100) 0 < 35999 / 100)
    by (rewrite alpha_model_equator; lra).
  split; [ exact H | ].
  destruct (ra_band_excludes_source_across_meridian alpha_model H)
    as (Hcone & Hbands & _).
  split; [ exact Hcone | exact Hbands ].
Defined.

(** ** Bounds on the sine and cosine of small angles in degrees *)











(** ** A candidate inside the bands that the cone test rejects *)





(** ** The order of results next to the pole *)















(** ** What the zone and declination bands never exclude *)

Lemma dot_le_cos_decl_difference (ar dr ac dc : R) :
  0 <= cos dr -> 0 <= cos dc ->
  cos dc * cos ac * (cos dr * cos ar) + cos dc * sin ac * (cos dr * sin ar)
  + sin dc * sin dr <= cos (dc - dr).
Proof.
  intros Hr Hc. rewrite cos_minus.
  pose proof (COS_bound (ac - ar)) as [_ Hle]. rewrite cos_minus in Hle.
  assert (Hp : 0 <= cos dc * cos dr) by now apply Rmult_le_pos.
  pose proof (Rmult_le_compat_l _ _ _ Hp Hle) as Hmul.
  lra.
Qed.

Lemma cos_lt_bounds_angle (t D : R) :
  0 <= t <= PI -> - PI <= D <= PI -> cos t < cos D -> - t <= D <= t.
Proof.
  intros Ht HD Hcos. split.
  - destruct (Rle_or_lt (- t) D) as [H | H]; [ exact H | exfalso ].
    assert (Hlt : cos (- D) < cos t) by (apply cos_decreasing_1; lra).
    rewrite cos_neg in Hlt. lra.
  - destruct (Rle_or_lt D t) as [H | H]; [ exact H | exfalso ].
    assert (Hlt : cos D < cos t) by (apply cos_decreasing_1; lra).
    lra.
Qed.

(** A catalog source that passes the cone test, with unit vectors
    consistent with the positions and declinations within [-90, 90],
    lies in the declination band and, with [zone = floor(decl)], in the
    zone band: these two bands never exclude a source within [radius] of
    the running source. *)
Lemma cone_within_zone_and_declination_bands (radius : R)
    (r : runningcatalog_row) (c : catalogedsource_row) :
  (r_x r, r_y r, r_z r) = eq_to_cart (wm_ra r) (wm_decl r) ->
  (c_x c, c_y c, c_z c) = eq_to_cart (c_ra c) (c_decl c) ->
  c_zone c = FLOOR (c_decl c) ->
  -90 <= wm_decl r <= 90 -> -90 <= c_decl c <= 90 -> 0 <= radius <= 180 ->
  match_cone radius r c = true ->
  BETWEEN_INT (c_zone c) (FLOOR (wm_decl r - radius)) (FLOOR (wm_decl r + radius))
    = true /\
  BETWEEN (c_decl c) (wm_decl r - radius) (wm_decl r + radius) = true.
Proof.
  intros Hr Hc Hzone Hdr Hdc Hrad Hcone.
  unfold eq_to_cart in Hr, Hc.
  injection Hr as Hrx Hry Hrz. injection Hc as Hcx Hcy Hcz.
  unfold match_cone in Hcone.
  rewrite Rltb_true, Hrx, Hry, Hrz, Hcx, Hcy, Hcz in Hcone.
  pose proof PI_RGT_0 as Hpi.
  assert (Hcr : 0 <= cos (RADIANS (wm_decl r)))
    by (apply cos_ge_0; unfold RADIANS; nra).
  assert (Hcc : 0 <= cos (RADIANS (c_decl c)))
    by (apply cos_ge_0; unfold RADIANS; nra).
  pose proof (dot_le_cos_decl_difference (RADIANS (wm_ra r)) (RADIANS (wm_decl r))
                (RADIANS (c_ra c)) (RADIANS (c_decl c)) Hcr Hcc) as Hdot.
  assert (Hband : - RADIANS radius
                  <= RADIANS (c_decl c) - RADIANS (wm_decl r)
                  <= RADIANS radius).
  { apply cos_lt_bounds_angle; unfold RADIANS in *; nra. }
  assert (Hdecl : wm_decl r - radius <= c_decl c <= wm_decl r + radius)
    by (unfold RADIANS in Hband; nra).
  rewrite BETWEEN_INT_true, BETWEEN_true, Hzone.
  split; [ split; apply Zfloor_le; lra | exact Hdecl ].
Qed.

(** ** Further properties of the bulk insert *)

Lemma abs_le_quadrature (a b : R) : Rabs a <= sqrt (a ^ 2 + b ^ 2).
Proof.
  rewrite <- (sqrt_Rsqr_abs a), Rsqr_pow2.
  apply sqrt_le_1_alt. pose proof (pow2_ge_0 b). lra.
Qed.

Lemma quadrature_zero (a b : R) : sqrt (a ^ 2 + b ^ 2) = 0 <-> a = 0 /\ b = 0.
Proof.
  pose proof (pow2_ge_0 a) as Ha. pose proof (pow2_ge_0 b) as Hb. split.
  - intros Hs. apply sqrt_eq_0 in Hs; [ | lra ]. split; nra.
  - intros [-> ->]. replace (0 ^ 2 + 0 ^ 2) with 0 by ring. apply sqrt_0.
Qed.

Lemma enriched_errors alpha_inflate image_id extract src r :
  enriched alpha_inflate image_id extract src = Returned r ->
  ex_error_radius r = substitute_inf (d_error_radius src) 360 /\
  ex_ra_err r =
    sqrt (d_ra_fit_err src ^ 2
          + alpha_inflate (d_ew_sys_err src / 3600) (d_decl src) ^ 2) /\
  ex_decl_err r =
    sqrt (d_decl_fit_err src ^ 2 + (d_ns_sys_err src / 3600) ^ 2) /\
  ex_uncertainty_ew r =
    sqrt (d_ew_sys_err src ^ 2 + ex_error_radius r ^ 2) / 3600 /\
  ex_uncertainty_ns r =
    sqrt (d_ns_sys_err src ^ 2 + ex_error_radius r ^ 2) / 3600.
Proof.
  unfold enriched.
  destruct (eq_to_cart (d_ra src) (d_decl src)) as [[cx cy] cz].
  destruct (extract_type_tag extract) as [tag | e]; unfold bind; [ | discriminate ].
  intros H; injection H as <-. repeat split.
Qed.

(** X1: the positional errors the insert stores are exact quadrature
    sums, so neither is below the size of one of its two components: the
    fit error and the (inflated, respectively converted) systematic
    error. *)
Theorem positional_errors_dominate_components alpha_inflate image_id extract
    src r :
  enriched alpha_inflate image_id extract src = Returned r ->
  ex_ra_err r ^ 2 =
    d_ra_fit_err src ^ 2
    + alpha_inflate (d_ew_sys_err src / 3600) (d_decl src) ^ 2 /\
  ex_decl_err r ^ 2 = d_decl_fit_err src ^ 2 + (d_ns_sys_err src / 3600) ^ 2 /\
  Rabs (d_ra_fit_err src) <= ex_ra_err r /\
  Rabs (alpha_inflate (d_ew_sys_err src / 3600) (d_decl src)) <= ex_ra_err r /\
  Rabs (d_decl_fit_err src) <= ex_decl_err r /\
  Rabs (d_ns_sys_err src / 3600) <= ex_decl_err r.
Proof.
  intros Hr.
  destruct (enriched_errors _ _ _ _ _ Hr) as (_ & -> & -> & _).
  set (fit_ra := d_ra_fit_err src).
  set (sys_ra := alpha_inflate (d_ew_sys_err src / 3600) (d_decl src)).
  set (fit_decl := d_decl_fit_err src).
  set (sys_decl := d_ns_sys_err src / 3600).
  pose proof (pow2_ge_0 fit_ra). pose proof (pow2_ge_0 sys_ra).
  pose proof (pow2_ge_0 fit_decl). pose proof (pow2_ge_0 sys_decl).
  repeat split.
  - apply pow2_sqrt. lra.
  - apply pow2_sqrt. lra.
  - apply abs_le_quadrature.
  - rewrite (Rplus_comm (fit_ra ^ 2)). apply abs_le_quadrature.
  - apply abs_le_quadrature.
  - rewrite (Rplus_comm (fit_decl ^ 2)). apply abs_le_quadrature.
Qed.

Lemma positional_errors_dominate_components_witness :
  exists r, enriched alpha_model 1 "blind" detection_A = Returned r /\
            Rabs (d_ra_fit_err detection_A) <= ex_ra_err r /\
            Rabs (d_decl_fit_err detection_A) <= ex_decl_err r.
Proof.
  destruct enriched_detection_A as (r & Hr & _).
  exists r. split; [ exact Hr | ].
  destruct (positional_errors_dominate_components alpha_model 1 "blind"
              detection_A r Hr) as (_ & _ & Hra & _ & Hdecl & _).
  split; [ exact Hra | exact Hdecl ].
Defined.

(** X2: a stored uncertainty is never negative, and it is zero exactly
    when the systematic error and the stored error radius are both zero:
    the insert itself does not keep the uncertainties, which the De
    Ruiter radius divides by, away from zero. *)
Theorem uncertainty_zero_iff_no_error alpha_inflate image_id extract src r :
  enriched alpha_inflate image_id extract src = Returned r ->
  0 <= ex_uncertainty_ew r /\ 0 <= ex_uncertainty_ns r /\
  (ex_uncertainty_ew r = 0 <-> d_ew_sys_err src = 0 /\ ex_error_radius r = 0) /\
  (ex_uncertainty_ns r = 0 <-> d_ns_sys_err src = 0 /\ ex_error_radius r = 0).
Proof.
  intros Hr.
  destruct (enriched_errors _ _ _ _ _ Hr) as (_ & _ & _ & -> & ->).
  set (er := ex_error_radius r).
  pose proof (sqrt_pos (d_ew_sys_err src ^ 2 + er ^ 2)) as Hew.
  pose proof (sqrt_pos (d_ns_sys_err src ^ 2 + er ^ 2)) as Hns.
  pose proof (quadrature_zero (d_ew_sys_err src) er) as Zew.
  pose proof (quadrature_zero (d_ns_sys_err src) er) as Zns.
  set (qew := sqrt (d_ew_sys_err src ^ 2 + er ^ 2)) in *.
  set (qns := sqrt (d_ns_sys_err src ^ 2 + er ^ 2)) in *.
  split; [ lra | ]. split; [ lra | ].
  split.
  - rewrite <- Zew. split; intros H; lra.
  - rewrite <- Zns. split; intros H; lra.
Qed.

Lemma uncertainty_zero_iff_no_error_witness :
  exists r, enriched alpha_model 1 "blind" detection_A = Returned r /\
            0 <= ex_uncertainty_ew r /\ 0 <= ex_uncertainty_ns r.
Proof.
  destruct enriched_detection_A as (r & Hr & _).
  exists r. split; [ exact Hr | ].
  destruct (uncertainty_zero_iff_no_error alpha_model 1 "blind" detection_A r Hr)
    as (Hew & Hns & _).
  split; [ exact Hew | exact Hns ].
Defined.

(** X3: for a row written by the insert the zone is the floor of the
    declination, so in the band conditions of the removal pass the zone
    band never decides: the row passes the three bands exactly when it
    passes the declination band and the RA band. *)
Theorem zone_band_never_decides_for_inserted_rows alpha alpha_inflate image_id
    extract src (x1 x0 : xtrsrc) (assoc_theta : R) :
  enriched alpha_inflate image_id extract src = Returned x1 ->
  filter_ud_bands alpha assoc_theta x0 x1 =
  BETWEEN (ex_decl x1) (ex_decl x0 - assoc_theta) (ex_decl x0 + assoc_theta)
  && BETWEEN (ex_ra x1) (ex_ra x0 - alpha assoc_theta (ex_decl x0))
                        (ex_ra x0 + alpha assoc_theta (ex_decl x0)).
Proof.
  intros Hx1.
  destruct (enriched_columns _ _ _ _ _ Hx1) as (_ & Hdecl & Hzone & _).
  rewrite <- Hdecl in Hzone. unfold filter_ud_bands.
  destruct (BETWEEN (ex_decl x1) (ex_decl x0 - assoc_theta)
              (ex_decl x0 + assoc_theta)) eqn:Hband.
  - apply BETWEEN_true in Hband.
    assert (Hz : BETWEEN_INT (ex_zone x1) (FLOOR (ex_decl x0 - assoc_theta))
                   (FLOOR (ex_decl x0 + assoc_theta)) = true).
    { rewrite BETWEEN_INT_true, Hzone. split; apply Zfloor_le; lra. }
    now rewrite Hz.
  - now rewrite andb_false_r.
Qed.

Lemma zone_band_never_decides_for_inserted_rows_witness :
  exists x1,
    enriched alpha_model 1 "blind" detection_A = Returned x1 /\
    filter_ud_bands alpha_model (3 / 100) (sample_xtrsrc 1 3) x1 =
    BETWEEN (ex_decl x1) (45 - 3 / 100) (45 + 3 / 100)
    && BETWEEN (ex_ra x1) (10 - alpha_model (3 / 100) 45)
                          (10 + alpha_model (3 / 100) 45).
Proof.
  destruct enriched_detection_A as (x1 & Hx1 & _).
  exists x1. split; [ exact Hx1 | ].
  apply (zone_band_never_decides_for_inserted_rows alpha_model alpha_model 1
           "blind" detection_A x1 (sample_xtrsrc 1 3) (3 / 100) Hx1).
Defined.

(** ** Further properties of the removal pass *)

Lemma filter_keeps_all {Row : Type} (keep : Row -> bool) (rows : list Row) :
  (forall row, In row rows -> keep row = true) -> filter keep rows = rows.
Proof.
  induction rows as [| row rows IH]; simpl; intros Hall; [ reflexivity | ].
  rewrite (Hall row) by now left.
  f_equal. apply IH. intros other Hin. apply Hall. now right.
Qed.

Lemma filter_same_length {Row : Type} (keep : Row -> bool) (rows : list Row) :
  List.length (filter keep rows) = List.length rows -> filter keep rows = rows.
Proof.
  induction rows as [| row rows IH]; simpl; [ reflexivity | ].
  pose proof (filter_length_le keep rows) as Hle.
  destruct (keep row); simpl; intros Hlen.
  - f_equal. apply IH. lia.
  - lia.
Qed.

Lemma DELETE_nothing_listed (ids : list Z) (rows : list extractedsource_row) :
  (forall row, In row rows -> ~ In (ex_id row) ids) ->
  DELETE_WHERE_id_IN ids rows = (rows, 0%nat).
Proof.
  intros Hnone. unfold DELETE_WHERE_id_IN.
  rewrite filter_keeps_all; [ now rewrite Nat.sub_diag | ].
  intros row Hin. apply negb_true_iff, not_true_iff_false.
  rewrite existsb_Zeqb. now apply Hnone.
Qed.

Lemma filter_ud_unchanged alpha db image_id deRuiter_r assoc_theta :
  (forall row, In row (extractedsource db) ->
     ~ In (ex_id row)
          (filter_ud_subquery alpha db image_id (assoc_theta_arg assoc_theta)
             deRuiter_r)) ->
  filter_userdetections_extracted_sources alpha db image_id deRuiter_r assoc_theta
  = mkRun (set_extractedsource db (extractedsource db) (extractedsource_seq db))
          [NoUserEntryRemoved image_id] (Returned tt).
Proof.
  intros Hnone. unfold filter_userdetections_extracted_sources.
  now rewrite (DELETE_nothing_listed _ _ Hnone).
Qed.

Lemma set_extractedsource_same (db : database) :
  set_extractedsource db (extractedsource db) (extractedsource_seq db) = db.
Proof. now destruct db. Qed.

(** The rows the removal pass leaves were all there before, so it
    introduces no zero denominator. *)
Lemma filter_ud_preserves_divides alpha db image_id deRuiter_r assoc_theta :
  filter_ud_divides db ->
  filter_ud_divides
    (store (filter_userdetections_extracted_sources alpha db image_id
              deRuiter_r assoc_theta)).
Proof.
  intros Hdiv x0 x1 H0 H1. rewrite filter_ud_store in H0, H1.
  apply in_DELETE_kept in H0, H1. apply Hdiv; tauto.
Qed.

(** X4: on a store where no De Ruiter expression of the subquery
    divides by zero, the removal pass is idempotent: the store it leaves
    has no zero denominator either and, run again with the same arguments
    on that store, the pass deletes nothing, leaves the store as it is
    and logs that no user-entry source was removed. *)
Theorem filter_ud_idempotent alpha db image_id deRuiter_r assoc_theta :
  filter_ud_divides db ->
  let first :=
    filter_userdetections_extracted_sources alpha db image_id deRuiter_r
      assoc_theta in
  let second :=
    filter_userdetections_extracted_sources alpha (store first) image_id
      deRuiter_r assoc_theta in
  filter_ud_divides (store first) /\
  store second = store first /\
  logged second = [NoUserEntryRemoved image_id] /\
  result second = Returned tt.
Proof.
  intros Hdiv first second.
  split; [ now apply filter_ud_preserves_divides | ].
  assert (Hnone : forall row, In row (extractedsource (store first)) ->
            ~ In (ex_id row)
                 (filter_ud_subquery alpha (store first) image_id
                    (assoc_theta_arg assoc_theta) deRuiter_r)).
  { intros row _ Hsel. apply in_filter_ud_subquery in Hsel.
    destruct Hsel as (x0 & x1 & H0 & H1 & Hw & _).
    subst first. rewrite filter_ud_store in H0, H1.
    apply in_DELETE_kept in H0, H1. destruct H0 as [H0 Hnot], H1 as [H1 _].
    apply Hnot. apply in_filter_ud_subquery. now exists x0, x1. }
  subst second. rewrite (filter_ud_unchanged _ _ _ _ _ Hnone).
  cbn [store logged result]. now rewrite set_extractedsource_same.
Qed.

Lemma filter_ud_idempotent_witness :
  filter_ud_divides user_entry_db /\
  store (filter_userdetections_extracted_sources alpha_model
           (store (filter_userdetections_extracted_sources alpha_model
                     user_entry_db 1 (37 / 10) None))
           1 (37 / 10) None)
  = store (filter_userdetections_extracted_sources alpha_model user_entry_db 1
             (37 / 10) None) /\
  logged (filter_userdetections_extracted_sources alpha_model
            (store (filter_userdetections_extracted_sources alpha_model
                      user_entry_db 1 (37 / 10) None))
            1 (37 / 10) None)
  = [NoUserEntryRemoved 1].
Proof.
  split; [ exact user_entry_db_divides | ].
  destruct (filter_ud_idempotent alpha_model user_entry_db 1 (37 / 10) None
              user_entry_db_divides) as (_ & Hstore & Hlog & _).
  split; [ exact Hstore | exact Hlog ].
Defined.

(** X5: on a store where no De Ruiter expression of the subquery
    divides by zero, the removal pass returns and its log line tells what
    happened to the table: either nothing was deleted, the table is as
    before and the line says that no user-entry source was removed, or
    the line gives the positive number of rows by which the table
    shrank. *)
Theorem filter_ud_log_matches_effect alpha db image_id deRuiter_r assoc_theta :
  filter_ud_divides db ->
  let out :=
    filter_userdetections_extracted_sources alpha db image_id deRuiter_r
      assoc_theta in
  let removed :=
    (List.length (extractedsource db)
     - List.length (extractedsource (store out)))%nat in
  result out = Returned tt /\
  ((extractedsource (store out) = extractedsource db /\
    logged out = [NoUserEntryRemoved image_id]) \/
   (extractedsource (store out) <> extractedsource db /\
    (0 < removed)%nat /\
    (List.length (extractedsource (store out)) + removed
       = List.length (extractedsource db))%nat /\
    logged out = [RemovedSources removed image_id])).
Proof.
  intros _ out removed. split; [ reflexivity | ]. subst removed out.
  rewrite filter_ud_store.
  unfold filter_userdetections_extracted_sources, DELETE_WHERE_id_IN.
  cbn [fst store logged].
  set (keep := fun row : extractedsource_row =>
         negb (existsb (Z.eqb (ex_id row))
                 (filter_ud_subquery alpha db image_id
                    (assoc_theta_arg assoc_theta) deRuiter_r))).
  pose proof (filter_length_le keep (extractedsource db)) as Hle.
  destruct (Nat.eqb_spec
              (List.length (extractedsource db)
               - List.length (filter keep (extractedsource db))) 0) as [E | E].
  - left. split; [ apply filter_same_length; lia | reflexivity ].
  - right. split; [ | split; [ lia | split; [ lia | reflexivity ] ] ].
    intros Heq. rewrite Heq in E. lia.
Qed.

Lemma filter_ud_log_matches_effect_witness :
  filter_ud_divides user_entry_db /\
  result (filter_userdetections_extracted_sources alpha_model user_entry_db 1
            (37 / 10) None) = Returned tt.
Proof.
  split; [ exact user_entry_db_divides | ].
  apply (filter_ud_log_matches_effect alpha_model user_entry_db 1 (37 / 10)
           None user_entry_db_divides).
Defined.

(** X6: the De Ruiter radius of the removal pass does not depend on
    which of the two rows is taken first, and it is never negative. *)
Theorem filter_ud_de_ruiter_symmetric (x0 x1 : xtrsrc) :
  filter_ud_de_ruiter x0 x1 = filter_ud_de_ruiter x1 x0 /\
  0 <= filter_ud_de_ruiter x0 x1.
Proof.
  split; [ | apply sqrt_pos ].
  unfold filter_ud_de_ruiter. apply (f_equal sqrt).
  rewrite (Rplus_comm (ex_decl x1) (ex_decl x0)).
  rewrite (Rplus_comm (ex_uncertainty_ew x1 * ex_uncertainty_ew x1)).
  rewrite (Rplus_comm (ex_uncertainty_ns x1 * ex_uncertainty_ns x1)).
  unfold Rdiv. ring.
Qed.

Lemma filter_ud_where_false_unchanged alpha db image_id deRuiter_r assoc_theta :
  (forall x0 x1 : extractedsource_row,
     filter_ud_counterpart alpha (assoc_theta_arg assoc_theta) deRuiter_r x0 x1
     = false) ->
  filter_userdetections_extracted_sources alpha db image_id deRuiter_r assoc_theta
  = mkRun db [NoUserEntryRemoved image_id] (Returned tt).
Proof.
  intros Hfalse. rewrite filter_ud_unchanged.
  - now rewrite set_extractedsource_same.
  - intros row _ Hsel. apply in_filter_ud_subquery in Hsel.
    destruct Hsel as (x0 & x1 & _ & _ & Hw & _).
    apply filter_ud_where_true in Hw. destruct Hw as (_ & _ & _ & _ & Hc).
    rewrite Hfalse in Hc. discriminate Hc.
Qed.

(** X7: on a store where no De Ruiter expression of the subquery
    divides by zero, with a cut-off that is zero or negative, or with a
    negative radius, the removal pass deletes nothing: the store is
    returned as it was and the log says that no user-entry source was
    removed.  No argument is rejected. *)
Theorem filter_ud_degenerate_arguments alpha db image_id deRuiter_r assoc_theta :
  filter_ud_divides db ->
  deRuiter_r <= 0 \/ assoc_theta_arg assoc_theta < 0 ->
  filter_userdetections_extracted_sources alpha db image_id deRuiter_r assoc_theta
  = mkRun db [NoUserEntryRemoved image_id] (Returned tt).
Proof.
  intros _ Hdeg. apply filter_ud_where_false_unchanged. intros x0 x1.
  unfold filter_ud_counterpart, filter_ud_bands.
  apply not_true_iff_false.
  rewrite !andb_true_iff, !BETWEEN_true, Rltb_true.
  intros [[[_ Hdecl] _] Hcut].
  pose proof (sqrt_pos
    ((ex_ra x0 - ex_ra x1) * cos (RADIANS ((ex_decl x0 + ex_decl x1) / 2))
     * (ex_ra x0 - ex_ra x1) * cos (RADIANS ((ex_decl x0 + ex_decl x1) / 2))
     / (ex_uncertainty_ew x0 * ex_uncertainty_ew x0
        + ex_uncertainty_ew x1 * ex_uncertainty_ew x1)
     + (ex_decl x0 - ex_decl x1) * (ex_decl x0 - ex_decl x1)
     / (ex_uncertainty_ns x0 * ex_uncertainty_ns x0
        + ex_uncertainty_ns x1 * ex_uncertainty_ns x1))) as Hpos.
  unfold filter_ud_de_ruiter in Hcut. lra.
Qed.

Lemma filter_ud_degenerate_arguments_witness :
  filter_ud_divides user_entry_db /\
  (0 <= 0 \/ assoc_theta_arg None < 0) /\
  filter_userdetections_extracted_sources alpha_model user_entry_db 1 0 None
  = mkRun user_entry_db [NoUserEntryRemoved 1] (Returned tt).
Proof.
  assert (H : 0 <= 0 \/ assoc_theta_arg None < 0) by (left; lra).
  split; [ exact user_entry_db_divides | ]. split; [ exact H | ].
  apply (filter_ud_degenerate_arguments alpha_model user_entry_db 1 0 None
           user_entry_db_divides H).
Defined.

(** ** Further properties of the light-curve query *)

Lemma sorted_nth_error {A : Type} (R : A -> A -> Prop) (l : list A) :
  StronglySorted R l ->
  forall i j a b,
    (i < j)%nat -> nth_error l i = Some a -> nth_error l j = Some b -> R a b.
Proof.
  induction 1 as [| c l Hs IH Hall]; intros i j a b Hij Hi Hj.
  - destruct i; discriminate Hi.
  - destruct j as [| j]; [ lia | ]. simpl in Hj.
    destruct i as [| i]; simpl in Hi.
    + injection Hi as <-. rewrite Forall_forall in Hall.
      apply Hall. eapply nth_error_In; eassumption.
    + apply (IH i j); [ lia | assumption | assumption ].
Qed.

Lemma in_runcats_of db (xtrsrc rc : Z) :
  In rc (runcats_of db xtrsrc) <->
  exists a, In a (assocxtrsource db) /\ ax_xtrsrc a = xtrsrc /\ ax_runcat a = rc.
Proof.
  unfold runcats_of. rewrite in_map_iff. split.
  - intros (a & Hrc & Hin). apply filter_In in Hin. destruct Hin as [Hin Heq].
    apply Z.eqb_eq in Heq. now exists a.
  - intros (a & Hin & Hx & Hrc). exists a. split; [ exact Hrc | ].
    apply filter_In. split; [ exact Hin | now apply Z.eqb_eq ].
Qed.

Lemma in_lightcurve_from db (ex : extractedsource_row) (ax : assocxtrsource_row)
    (im : image_row) (bd : frequencyband_row) :
  In (ex, ax, im, bd) (lightcurve_from db) <->
  In ex (extractedsource db) /\ In ax (assocxtrsource db) /\
  In im (images db) /\ In bd (frequencyband db).
Proof.
  unfold lightcurve_from. rewrite in_flat_map. split.
  - intros (ex' & Hex & H). rewrite in_flat_map in H.
    destruct H as (ax' & Hax & H). rewrite in_flat_map in H.
    destruct H as (im' & Him & H). apply in_map_iff in H.
    destruct H as (bd' & Heq & Hbd). injection Heq as -> -> -> ->. tauto.
  - intros (Hex & Hax & Him & Hbd). exists ex. split; [ exact Hex | ].
    rewrite in_flat_map. exists ax. split; [ exact Hax | ].
    rewrite in_flat_map. exists im. split; [ exact Him | ].
    apply in_map_iff. now exists bd.
Qed.

(** X8: whatever the store and the identifier, the tuples of a light
    curve come in ascending order of their first component, the start
    time of the observation. *)
Theorem lightcurve_ascending_start_times db xtrsrcid :
  exists tuples,
    result (lightcurve db xtrsrcid) = Returned tuples /\
    forall i j ti tj,
      (i <= j)%nat ->
      nth_error tuples i = Some ti -> nth_error tuples j = Some tj ->
      exists si sj,
        nth_error ti 0 = Some (SqlTimestamp si) /\
        nth_error tj 0 = Some (SqlTimestamp sj) /\
        (si <= sj)%Z.
Proof.
  eexists. split; [ reflexivity | ].
  intros i j ti tj Hij Hi Hj. unfold lightcurve_query in Hi, Hj.
  rewrite nth_error_map in Hi, Hj.
  destruct (nth_error (lightcurve_rows db xtrsrcid) i)
    as [[[[exi axi] imi] bdi] |] eqn:Ei; [ | discriminate Hi ].
  destruct (nth_error (lightcurve_rows db xtrsrcid) j)
    as [[[[exj axj] imj] bdj] |] eqn:Ej; [ | discriminate Hj ].
  injection Hi as <-. injection Hj as <-.
  exists (im_taustart_ts imi), (im_taustart_ts imj).
  split; [ reflexivity | ]. split; [ reflexivity | ].
  destruct (Nat.eq_dec i j) as [-> | Hne].
  - rewrite Ei in Ej. injection Ej as _ _ -> _. lia.
  - pose proof (sorted_nth_error _ _ (lightcurve_rows_sorted db xtrsrcid)
                  i j _ _ ltac:(lia) Ei Ej) as Hle.
    cbn in Hle. now apply Z.leb_le.
Qed.

(** X9: a tuple is in the light curve of a detection exactly when it is
    the selected columns of a detection [ex] that some association row
    [ax] links to a running source of the given detection, joined with
    the image of [ex] and the frequency band of that image. *)
Theorem lightcurve_tuples_characterised db xtrsrcid (t : tuple) :
  exists tuples,
    result (lightcurve db xtrsrcid) = Returned tuples /\
    (In t tuples <->
     exists ex ax im bd other,
       In ex (extractedsource db) /\ In ax (assocxtrsource db) /\
       In im (images db) /\ In bd (frequencyband db) /\
       In other (assocxtrsource db) /\
       ax_xtrsrc other = xtrsrcid /\ ax_runcat other = ax_runcat ax /\
       ax_xtrsrc ax = ex_id ex /\ ex_image ex = im_id im /\
       bd_id bd = im_band im /\
       t = [ SqlTimestamp (im_taustart_ts im); SqlDouble (im_tau_time im);
             SqlDouble (ex_f_int ex); SqlDouble (ex_f_int_err ex);
             SqlInt (ex_id ex); SqlInt (im_band im); SqlInt (im_stokes im);
             SqlDouble (bd_freq_central bd) ]).
Proof.
  eexists. split; [ reflexivity | ].
  unfold lightcurve_query, lightcurve_rows. rewrite in_map_iff. split.
  - intros ([[[ex ax] im] bd] & <- & Hin).
    apply ORDER_BY_In, filter_In in Hin. destruct Hin as [Hfrom Hw].
    apply in_lightcurve_from in Hfrom. unfold lightcurve_where in Hw.
    rewrite !andb_true_iff, !Z.eqb_eq, existsb_Zeqb, in_runcats_of in Hw.
    destruct Hw as [[[(other & Ho & Hox & Hor) Hax] Hex] Hbd].
    exists ex, ax, im, bd, other. repeat split; tauto.
  - intros (ex & ax & im & bd & other & Hex & Hax & Him & Hbd & Ho & Hox & Hor
            & Hj1 & Hj2 & Hj3 & ->).
    exists (ex, ax, im, bd). split; [ reflexivity | ].
    apply ORDER_BY_In, filter_In. split.
    + apply in_lightcurve_from. tauto.
    + unfold lightcurve_where.
      rewrite !andb_true_iff, !Z.eqb_eq, existsb_Zeqb, in_runcats_of.
      repeat split; try assumption. now exists other.
Qed.

(** X10: the light curve depends on the detection only through the
    running sources it is associated with: for two detections associated
    with the same running sources both calls return, and the two lists
    hold the same tuples, each as often in the one as in the other (they
    are permutations of each other; the order of tuples with equal start
    times is left open).  So any point of a curve gives the whole
    curve. *)
Theorem lightcurve_same_for_associated_detections db (xtrsrc1 xtrsrc2 : Z) :
  (forall rc,
     (exists a, In a (assocxtrsource db) /\ ax_xtrsrc a = xtrsrc1 /\
                ax_runcat a = rc) <->
     (exists a, In a (assocxtrsource db) /\ ax_xtrsrc a = xtrsrc2 /\
                ax_runcat a = rc)) ->
  exists curve1 curve2,
    result (lightcurve db xtrsrc1) = Returned curve1 /\
    result (lightcurve db xtrsrc2) = Returned curve2 /\
    Permutation curve1 curve2.
Proof.
  intros Hsame. do 2 eexists.
  split; [ reflexivity | ]. split; [ reflexivity | ].
  unfold lightcurve_query. apply Permutation_map.
  rewrite (lightcurve_rows_complete db xtrsrc1).
  rewrite (lightcurve_rows_complete db xtrsrc2).
  assert (Hfilter : filter (lightcurve_where db xtrsrc1) (lightcurve_from db)
                    = filter (lightcurve_where db xtrsrc2) (lightcurve_from db)).
  { apply filter_ext. intros [[[ex ax] im] bd].
    unfold lightcurve_where. do 3 f_equal.
    apply eq_true_iff_eq. rewrite !existsb_Zeqb, !in_runcats_of. apply Hsame. }
  rewrite Hfilter. reflexivity.
Qed.

Lemma lightcurve_same_for_associated_detections_witness :
  (forall rc,
     (exists a, In a (assocxtrsource lightcurve_db) /\ ax_xtrsrc a = 1%Z /\
                ax_runcat a = rc) <->
     (exists a, In a (assocxtrsource lightcurve_db) /\ ax_xtrsrc a = 3%Z /\
                ax_runcat a = rc)) /\
  exists curve1 curve2,
    result (lightcurve lightcurve_db 1) = Returned curve1 /\
    result (lightcurve lightcurve_db 3) = Returned curve2 /\
    Permutation curve1 curve2.
Proof.
  assert (H : forall rc,
     (exists a, In a (assocxtrsource lightcurve_db) /\ ax_xtrsrc a = 1%Z /\
                ax_runcat a = rc) <->
     (exists a, In a (assocxtrsource lightcurve_db) /\ ax_xtrsrc a = 3%Z /\
                ax_runcat a = rc)).
  { intros rc. split.
    - intros (a & [<- | [<- | [<- | []]]] & Hx & <-); try discriminate Hx.
      exists {| ax_runcat := 1; ax_xtrsrc := 3 |}.
      split; [ right; right; left; reflexivity | split; reflexivity ].
    - intros (a & [<- | [<- | [<- | []]]] & Hx & <-); try discriminate Hx.
      exists {| ax_runcat := 1; ax_xtrsrc := 1 |}.
      split; [ left; reflexivity | split; reflexivity ]. }
  split; [ exact H | ].
  apply (lightcurve_same_for_associated_detections lightcurve_db 1 3 H).
Defined.

(** ** Further properties of the catalog cross-match *)

Lemma match_no_row_passes alpha db runcatid radius deRuiter_r :
  (forall r c k,
     In r (runningcatalog db) ->
     match_where alpha runcatid radius deRuiter_r (r, c, k) = false) ->
  match_nearests_in_catalogs alpha db runcatid radius deRuiter_r
  = mkRun db [] (Returned []).
Proof.
  intros Hfalse. unfold match_nearests_in_catalogs.
  assert (Hnil : match_matches alpha db runcatid radius deRuiter_r = []).
  { destruct (match_matches alpha db runcatid radius deRuiter_r)
      as [| m rest] eqn:E; [ reflexivity | exfalso ].
    assert (Hin : In m (match_matches alpha db runcatid radius deRuiter_r))
      by (rewrite E; now left).
    apply in_match_matches in Hin.
    destruct Hin as (r & c & k & Hr & _ & _ & Hw & _).
    rewrite (Hfalse r c k Hr) in Hw. discriminate Hw. }
  now rewrite Hnil.
Qed.

(** X11: for an identifier that no row of the running catalog carries,
    the cross-match returns the empty list, raises nothing and leaves the
    store as it was. *)
Theorem match_unknown_running_source alpha db runcatid radius deRuiter_r :
  (forall r, In r (runningcatalog db) -> r_id r <> runcatid) ->
  match_nearests_in_catalogs alpha db runcatid radius deRuiter_r
  = mkRun db [] (Returned []).
Proof.
  intros Hunknown. apply match_no_row_passes. intros r c k Hr.
  apply not_true_iff_false. rewrite match_where_true.
  intros (Hid & _). now apply (Hunknown r Hr).
Qed.

Lemma match_unknown_running_source_witness :
  (forall r, In r (runningcatalog catalog_db) -> r_id r <> 7%Z) /\
  match_nearests_in_catalogs alpha_model catalog_db 7 (3 / 100) (37 / 10)
  = mkRun catalog_db [] (Returned []).
Proof.
  assert (H : forall r, In r (runningcatalog catalog_db) -> r_id r <> 7%Z).
  { intros r [<- | []]. discriminate. }
  split; [ exact H | ].
  apply (match_unknown_running_source alpha_model catalog_db 7 (3 / 100)
           (37 / 10) H).
Defined.

(** X12: on a store where no De Ruiter expression of the query divides
    by zero, with a cut-off that is zero or negative, or with a negative
    search radius, the cross-match returns the empty list; the arguments
    are not rejected. *)
Theorem match_degenerate_arguments alpha db runcatid radius deRuiter_r :
  match_divides db ->
  deRuiter_r <= 0 \/ radius < 0 ->
  match_nearests_in_catalogs alpha db runcatid radius deRuiter_r
  = mkRun db [] (Returned []).
Proof.
  intros _ Hdeg. apply match_no_row_passes. intros r c k _.
  apply not_true_iff_false. rewrite match_where_true.
  intros (_ & Hspatial & _ & Hcut).
  unfold match_spatial, match_bands in Hspatial.
  rewrite !andb_true_iff, !BETWEEN_true in Hspatial.
  destruct Hspatial as [[[_ Hdecl] _] _].
  assert (Hpos : 0 <= WHERE_de_ruiter r c) by apply sqrt_pos.
  lra.
Qed.

Lemma match_degenerate_arguments_witness :
  match_divides catalog_db /\
  (37 / 10 <= 0 \/ -1 < 0) /\
  match_nearests_in_catalogs alpha_model catalog_db 1 (-1) (37 / 10)
  = mkRun catalog_db [] (Returned []).
Proof.
  assert (H : 37 / 10 <= 0 \/ -1 < 0) by (right; lra).
  split; [ exact catalog_db_divides | ]. split; [ exact H | ].
  apply (match_degenerate_arguments alpha_model catalog_db 1 (-1) (37 / 10)
           catalog_db_divides H).
Defined.










(** ** Dictionaries *)

Lemma dict_get_set_same {V : Type} (d : list (string * V)) (key : string)
    (value : V) :
  dict_get (dict_set d key value) key = Some value.
Proof.
  induction d as [| [k v] rest IH]; simpl.
  - now rewrite String.eqb_refl.
  - destruct (String.eqb k key) eqn:E; simpl; rewrite E; [ reflexivity | exact IH ].
Qed.

Lemma dict_get_set_other {V : Type} (d : list (string * V)) (key other : string)
    (value : V) :
  key <> other -> dict_get (dict_set d key value) other = dict_get d other.
Proof.
  intros Hne. pose proof (proj2 (String.eqb_neq key other) Hne) as Hb.
  induction d as [| [k v] rest IH]; simpl.
  - now rewrite Hb.
  - destruct (String.eqb k key) eqn:E; simpl.
    + apply String.eqb_eq in E. subst k. now rewrite Hb.
    + destruct (String.eqb k other); [ reflexivity | exact IH ].
Qed.

Lemma dict_get_In {V : Type} (d : list (string * V)) (key : string) (value : V) :
  NoDup (map fst d) -> In (key, value) d -> dict_get d key = Some value.
Proof.
  induction d as [| [k v] rest IH]; simpl; [ contradiction | ].
  intros Hnd Hin. inversion Hnd as [| ? ? Hfresh Hnd']; subst.
  destruct Hin as [Heq | Hin].
  - injection Heq as -> ->. now rewrite String.eqb_refl.
  - destruct (String.eqb_spec k key) as [-> | _]; [ | now apply IH ].
    exfalso. apply Hfresh. apply in_map_iff. now exists (key, value).
Qed.

Lemma dict_get_not_In {V : Type} (d : list (string * V)) (key : string) :
  ~ In key (map fst d) -> dict_get d key = None.
Proof.
  induction d as [| [k v] rest IH]; simpl; [ reflexivity | ].
  intros Hnot. destruct (String.eqb_spec k key) as [-> | _].
  - exfalso. apply Hnot. now left.
  - apply IH. intros Hin. apply Hnot. now right.
Qed.

(** ** Properties of trap/inject.py *)

Lemma parset_fields_distinct :
  NoDup (map fst Inject.parset_fields) /\
  NoDup (map (fun item => snd (snd item)) Inject.parset_fields).
Proof.
  split; cbn; repeat (constructor; [ simpl; intuition discriminate | ]);
    constructor.
Qed.

Lemma modify_headers_fold_other parset (key : string)
    (items : list (string * (Inject.pytype * string))) :
  ~ In key (map (fun item => snd (snd item)) items) ->
  forall state,
    dict_get (fst (fold_left (Inject.modify_headers_step parset) items state)) key
    = dict_get (fst state) key.
Proof.
  induction items as [| [name [t k]] rest IH]; intros Hnot [header printed];
    simpl; [ reflexivity | ].
  simpl in Hnot. rewrite IH by tauto.
  destruct (dict_get parset name) as [value |]; simpl; [ | reflexivity ].
  apply dict_get_set_other. tauto.
Qed.

Lemma modify_headers_fold_listed parset name t (key : string)
    (items : list (string * (Inject.pytype * string))) :
  NoDup (map (fun item => snd (snd item)) items) ->
  In (name, (t, key)) items ->
  forall state,
    dict_get (fst (fold_left (Inject.modify_headers_step parset) items state)) key
    = match dict_get parset name with
      | Some value => Some value
      | None => dict_get (fst state) key
      end.
Proof.
  induction items as [| [name' [t' k']] rest IH]; intros Hnd Hin [header printed];
    simpl; [ contradiction | ].
  simpl in Hnd. inversion Hnd as [| ? ? Hfresh Hnd']; subst.
  destruct Hin as [Heq | Hin].
  - injection Heq as -> -> ->.
    rewrite (modify_headers_fold_other parset key rest Hfresh).
    destruct (dict_get parset name) as [value |]; simpl;
      [ apply dict_get_set_same | reflexivity ].
  - assert (Hne : k' <> key).
    { intros ->. apply Hfresh. apply in_map_iff.
      now exists (name, (t, key)). }
    rewrite (IH Hnd' Hin).
    destruct (dict_get parset name); [ reflexivity | ].
    destruct (dict_get parset name'); simpl; [ | reflexivity ].
    now apply dict_get_set_other.
Qed.

Lemma parse_parset_fold_other parset_file (name : string)
    (items : list (string * (Inject.pytype * string))) :
  ~ In name (map fst items) ->
  forall parsed,
    dict_get (fold_left (Inject.parse_parset_step parset_file) items parsed) name
    = dict_get parsed name.
Proof.
  induction items as [| [n [t k]] rest IH]; intros Hnot parsed; simpl;
    [ reflexivity | ].
  simpl in Hnot. rewrite IH by tauto.
  destruct (Inject.type_mapping t parset_file n) as [value |]; [ | reflexivity ].
  apply dict_get_set_other. tauto.
Qed.

Lemma parse_parset_fold_listed parset_file name t (key : string)
    (items : list (string * (Inject.pytype * string))) :
  NoDup (map fst items) -> In (name, (t, key)) items ->
  forall parsed,
    dict_get (fold_left (Inject.parse_parset_step parset_file) items parsed) name
    = match Inject.type_mapping t parset_file name with
      | Some value => Some value
      | None => dict_get parsed name
      end.
Proof.
  induction items as [| [n [t0 k0]] rest IH]; intros Hnd Hin parsed; simpl;
    [ contradiction | ].
  simpl in Hnd. inversion Hnd as [| ? ? Hfresh Hnd']; subst.
  destruct Hin as [Heq | Hin].
  - injection Heq as -> -> ->.
    rewrite (parse_parset_fold_other parset_file name rest Hfresh).
    destruct (Inject.type_mapping t parset_file name);
      [ apply dict_get_set_same | reflexivity ].
  - assert (Hne : n <> name).
    { intros ->. apply Hfresh. apply in_map_iff.
      now exists (name, (t, key)). }
    rewrite (IH Hnd' Hin).
    destruct (Inject.type_mapping t parset_file name); [ reflexivity | ].
    destruct (Inject.type_mapping t0 parset_file n); [ | reflexivity ].
    now apply dict_get_set_other.
Qed.

Lemma permuted_fields_distinct (items : list (string * (Inject.pytype * string))) :
  Permutation items Inject.parset_fields ->
  NoDup (map fst items) /\
  NoDup (map (fun item => snd (snd item)) items) /\
  (forall item, In item items <-> In item Inject.parset_fields).
Proof.
  intros Hperm. destruct parset_fields_distinct as [Hnames Hkeys].
  split; [ | split ].
  - eapply Permutation_NoDup; [ | exact Hnames ].
    apply Permutation_map. now symmetry.
  - eapply Permutation_NoDup; [ | exact Hkeys ].
    apply Permutation_map. now symmetry.
  - intros item. split; apply Permutation_in; [ exact Hperm | now symmetry ].
Qed.

(** X15: whatever the order in which the table of fields is walked,
    [parse_parset] returns, for every field of the table, what the
    getter of the field's type gives for it (no entry when the getter
    raises), and it has no entry for any other name: settings of the
    parset file that are not in the table are ignored. *)
Theorem parse_parset_reads_listed_fields
    (items : list (string * (Inject.pytype * string)))
    (parset_file : parameterset) :
  Permutation items Inject.parset_fields ->
  (forall name type_ fits_field,
     In (name, (type_, fits_field)) Inject.parset_fields ->
     dict_get (Inject.parse_parset_over items parset_file) name
     = Inject.type_mapping type_ parset_file name) /\
  (forall name,
     ~ In name (map fst Inject.parset_fields) ->
     dict_get (Inject.parse_parset_over items parset_file) name = None).
Proof.
  intros Hperm.
  destruct (permuted_fields_distinct items Hperm) as (Hnames & _ & Hin).
  split.
  - intros name t key Hfield. unfold Inject.parse_parset_over.
    rewrite (parse_parset_fold_listed parset_file name t key items Hnames)
      by now apply Hin.
    now destruct (Inject.type_mapping t parset_file name).
  - intros name Hnot. unfold Inject.parse_parset_over.
    rewrite parse_parset_fold_other; [ reflexivity | ].
    intros Hname. apply Hnot.
    eapply Permutation_in; [ apply Permutation_map; exact Hperm | exact Hname ].
Qed.

Lemma parse_parset_reads_listed_fields_witness :
  Permutation (rev Inject.parset_fields) Inject.parset_fields /\
  forall parset_file name,
    ~ In name (map fst Inject.parset_fields) ->
    dict_get (Inject.parse_parset_over (rev Inject.parset_fields) parset_file) name
    = None.
Proof.
  assert (H : Permutation (rev Inject.parset_fields) Inject.parset_fields)
    by (symmetry; apply Permutation_rev).
  split; [ exact H | ]. intros parset_file.
  apply (parse_parset_reads_listed_fields (rev Inject.parset_fields)
           parset_file H).
Defined.

(** X16: whatever the order in which the table is walked,
    [modify_headers] sets the FITS keyword of every field that the
    parset dictionary holds to the value of that field, leaves the keyword
    of a field the dictionary does not hold as it was, and leaves every
    keyword outside the table as it was. *)
Theorem modify_headers_sets_listed_keywords
    (items : list (string * (Inject.pytype * string)))
    (parset header : list (string * pyvalue)) :
  Permutation items Inject.parset_fields ->
  (forall name type_ fits_field,
     In (name, (type_, fits_field)) Inject.parset_fields ->
     dict_get (fst (Inject.modify_headers_over items parset header)) fits_field
     = match dict_get parset name with
       | Some value => Some value
       | None => dict_get header fits_field
       end) /\
  (forall keyword,
     ~ In keyword (map (fun item => snd (snd item)) Inject.parset_fields) ->
     dict_get (fst (Inject.modify_headers_over items parset header)) keyword
     = dict_get header keyword).
Proof.
  intros Hperm.
  destruct (permuted_fields_distinct items Hperm) as (_ & Hkeys & Hin).
  split.
  - intros name t key Hfield. unfold Inject.modify_headers_over.
    now rewrite (modify_headers_fold_listed parset name t key items Hkeys)
      by now apply Hin.
  - intros keyword Hnot. unfold Inject.modify_headers_over.
    rewrite modify_headers_fold_other; [ reflexivity | ].
    intros Hkey. apply Hnot.
    eapply Permutation_in; [ apply Permutation_map; exact Hperm | exact Hkey ].
Qed.

Lemma modify_headers_sets_listed_keywords_witness :
  Permutation (rev Inject.parset_fields) Inject.parset_fields /\
  forall parset header,
    dict_get
      (fst (Inject.modify_headers_over (rev Inject.parset_fields) parset header))
      "BMAJ"
    = match dict_get parset "bmaj" with
      | Some value => Some value
      | None => dict_get header "BMAJ"
      end.
Proof.
  assert (H : Permutation (rev Inject.parset_fields) Inject.parset_fields)
    by (symmetry; apply Permutation_rev).
  split; [ exact H | ]. intros parset header.
  apply (proj1 (modify_headers_sets_listed_keywords (rev Inject.parset_fields)
                  parset header H) "bmaj"%string Inject.float "BMAJ"%string).
  unfold Inject.parset_fields. simpl. tauto.
Defined.

(** X17: end to end, [main] leaves in the header, under the FITS keyword
    of every field of the table, the value the parset file gives for the
    field through the getter of its type; where the getter raises, and
    for every keyword outside the table, the header keeps what it had.
    This holds for every order in which the two loops walk the table. *)
Theorem main_injects_parset_values
    (items1 items2 : list (string * (Inject.pytype * string)))
    (parset_file : parameterset) (header : list (string * pyvalue)) :
  Permutation items1 Inject.parset_fields ->
  Permutation items2 Inject.parset_fields ->
  let header' :=
    fst (Inject.modify_headers_over items2
           (Inject.parse_parset_over items1 parset_file) header) in
  (forall name type_ fits_field,
     In (name, (type_, fits_field)) Inject.parset_fields ->
     dict_get header' fits_field
     = match Inject.type_mapping type_ parset_file name with
       | Some value => Some value
       | None => dict_get header fits_field
       end) /\
  (forall keyword,
     ~ In keyword (map (fun item => snd (snd item)) Inject.parset_fields) ->
     dict_get header' keyword = dict_get header keyword).
Proof.
  intros Hperm1 Hperm2 header'. subst header'.
  destruct (permuted_fields_distinct items1 Hperm1) as (Hnames1 & _ & Hin1).
  destruct (permuted_fields_distinct items2 Hperm2) as (_ & Hkeys2 & Hin2).
  split.
  - intros name t key Hfield. unfold Inject.modify_headers_over.
    rewrite (modify_headers_fold_listed _ name t key items2 Hkeys2)
      by now apply Hin2.
    unfold Inject.parse_parset_over.
    rewrite (parse_parset_fold_listed parset_file name t key items1 Hnames1)
      by now apply Hin1.
    now destruct (Inject.type_mapping t parset_file name).
  - intros keyword Hnot. unfold Inject.modify_headers_over.
    rewrite modify_headers_fold_other; [ reflexivity | ].
    intros Hkey. apply Hnot.
    eapply Permutation_in; [ apply Permutation_map; exact Hperm2 | exact Hkey ].
Qed.

Lemma main_injects_parset_values_witness :
  Permutation Inject.parset_fields Inject.parset_fields /\
  forall parset_file header keyword,
    ~ In keyword (map (fun item => snd (snd item)) Inject.parset_fields) ->
    dict_get (fst (Inject.main parset_file header)) keyword
    = dict_get header keyword.
Proof.
  split; [ apply Permutation_refl | ]. intros parset_file header.
  apply (main_injects_parset_values Inject.parset_fields Inject.parset_fields
           parset_file header (Permutation_refl _) (Permutation_refl _)).
Defined.

(** X18: each setter [set_<field>] of the module does to a header what
    [modify_headers] does for a parset dictionary that holds only
    [<field>]: the setters of the fields of the table write the keyword
    the table gives, and the setters of the two fields that are not in
    the table ([centre_decl], [centre_ra]) change nothing. *)
Theorem setters_agree_with_table :
  Forall
    (fun entry =>
       forall (header : list (string * pyvalue)) (value : pyvalue),
         snd entry header value
         = fst (Inject.modify_headers [(fst entry, value)] header))
    Inject.setters.
Proof.
  unfold Inject.setters. repeat constructor.
Qed.

(** ** Properties of tkp/steps/classification.py *)

Lemma classify_loop_without_cutoff (parset results classification
    : list (string * R)) :
  dict_get parset "weight_cutoff" = None -> results <> [] ->
  Classification.classify_loop parset results classification
  = Raises (KeyError "weight_cutoff").
Proof.
  intros Hnone Hne. destruct results as [| [key value] rest];
    [ contradiction | ].
  simpl. now rewrite Hnone.
Qed.

Lemma classify_loop_with_cutoff (parset : list (string * R)) (cutoff : R)
    (results : list (string * R)) :
  dict_get parset "weight_cutoff" = Some cutoff ->
  NoDup (map fst results) ->
  forall classification,
  exists classified,
    Classification.classify_loop parset results classification = Ok classified /\
    forall key,
      dict_get classified key
      = match dict_get results key with
        | Some value =>
            if Rltb cutoff value then Some value
            else dict_get classification key
        | None => dict_get classification key
        end.
Proof.
  intros Hcut. induction results as [| [k v] rest IH]; intros Hnd classification.
  - exists classification. split; [ reflexivity | ]. intros key. reflexivity.
  - simpl in Hnd. inversion Hnd as [| ? ? Hfresh Hnd']; subst.
    simpl. rewrite Hcut.
    destruct (IH Hnd' (if Rltb cutoff v then dict_set classification k v
                       else classification)) as (classified & Hloop & Hget).
    exists classified. split; [ exact Hloop | ]. intros key. rewrite Hget.
    destruct (String.eqb_spec k key) as [-> | Hne].
    + rewrite (dict_get_not_In rest key Hfresh).
      destruct (Rltb cutoff v); [ apply dict_get_set_same | reflexivity ].
    + destruct (dict_get rest key) as [value |].
      * destruct (Rltb cutoff value); [ reflexivity | ].
        destruct (Rltb cutoff v); [ now apply dict_get_set_other | reflexivity ].
      * destruct (Rltb cutoff v); [ now apply dict_get_set_other | reflexivity ].
Qed.

(** X19: the dictionary that [parse_parset] returns holds the cut-off
    under ['weighting_cutoff'], while [classify] reads
    ['weight_cutoff'].  So [classify], called with that dictionary on a
    transient that has its ['runcat'] and ['band'], raises [KeyError] as
    soon as the classifier returns at least one weight, after it has
    reset the ['classification'] of the transient to the empty
    dictionary; it returns only when the classifier returns no weight. *)
Theorem classify_after_parse_parset_raises
    (classifier : list (string * Classification.tvalue) -> list (string * R))
    (parset_file : parameterset) (parset : list (string * R))
    (transient : list (string * Classification.tvalue)) :
  Classification.parse_parset parset_file = Ok parset ->
  dict_get transient "runcat" <> None ->
  dict_get transient "band" <> None ->
  let cleared :=
    dict_set transient "classification" (Classification.Weights []) in
  (classifier transient <> [] ->
   Classification.classify classifier transient parset
   = (cleared, Raises (KeyError "weight_cutoff"))) /\
  (classifier transient = [] ->
   Classification.classify classifier transient parset
   = (dict_set cleared "classification" (Classification.Weights []),
      Ok (dict_set cleared "classification" (Classification.Weights [])))).
Proof.
  intros Hparse Hruncat Hband cleared.
  unfold Classification.parse_parset in Hparse.
  destruct (getFloat parset_file "weighting_cutoff") as [cutoff |];
    [ | discriminate Hparse ].
  injection Hparse as <-.
  unfold Classification.classify.
  destruct (dict_get transient "runcat"); [ | contradiction ].
  destruct (dict_get transient "band"); [ | contradiction ].
  split.
  - intros Hne. now rewrite classify_loop_without_cutoff.
  - intros ->. reflexivity.
Qed.

Lemma classify_after_parse_parset_raises_witness :
  let parset_file :=
    {| getString := fun _ => None; getInt := fun _ => None;
       getFloat := fun _ => Some (1 / 2) |} in
  let transient :=
    [ ("runcat"%string, Classification.Plain (PyInt 1));
      ("band"%string, Classification.Plain (PyInt 2)) ] in
  Classification.classify (fun _ => [("grb"%string, 1)]) transient
    [("weighting_cutoff"%string, 1 / 2)]
  = (dict_set transient "classification" (Classification.Weights []),
     Raises (KeyError "weight_cutoff")).
Proof.
  cbv zeta.
  apply (classify_after_parse_parset_raises (fun _ => [("grb"%string, 1)])
           {| getString := fun _ => None; getInt := fun _ => None;
              getFloat := fun _ => Some (1 / 2) |});
    try reflexivity; discriminate.
Defined.

(** X20: with a parset dictionary that holds ['weight_cutoff'],
    [classify] on a transient with ['runcat'] and ['band'] returns the
    transient with, under ['classification'], exactly the weights of the
    classifier that are strictly above the cut-off, each with its value;
    whatever was under ['classification'] before is gone, and every other
    key of the transient is as it was. *)
Theorem classify_keeps_weights_above_cutoff
    (classifier : list (string * Classification.tvalue) -> list (string * R))
    (parset : list (string * R)) (cutoff : R)
    (transient : list (string * Classification.tvalue)) :
  dict_get parset "weight_cutoff" = Some cutoff ->
  dict_get transient "runcat" <> None ->
  dict_get transient "band" <> None ->
  NoDup (map fst (classifier transient)) ->
  exists classified weights,
    Classification.classify classifier transient parset
      = (classified, Ok classified) /\
    dict_get classified "classification"
      = Some (Classification.Weights weights) /\
    (forall key,
       dict_get weights key
       = match dict_get (classifier transient) key with
         | Some value => if Rltb cutoff value then Some value else None
         | None => None
         end) /\
    (forall key, key <> "classification"%string ->
       dict_get classified key = dict_get transient key).
Proof.
  intros Hcut Hruncat Hband Hnd.
  destruct (classify_loop_with_cutoff parset cutoff (classifier transient)
              Hcut Hnd []) as (weights & Hloop & Hget).
  unfold Classification.classify.
  destruct (dict_get transient "runcat"); [ | contradiction ].
  destruct (dict_get transient "band"); [ | contradiction ].
  rewrite Hloop. eexists. exists weights.
  split; [ reflexivity | ]. split; [ apply dict_get_set_same | ]. split.
  - intros key. rewrite Hget.
    destruct (dict_get (classifier transient) key); reflexivity.
  - intros key Hne.
    rewrite !dict_get_set_other by (intros E; apply Hne; now symmetry).
    reflexivity.
Qed.

Lemma classify_keeps_weights_above_cutoff_witness :
  let transient :=
    [ ("runcat"%string, Classification.Plain (PyInt 1));
      ("band"%string, Classification.Plain (PyInt 2)) ] in
  exists classified weights,
    Classification.classify (fun _ => [("grb"%string, 1)]) transient
      [("weight_cutoff"%string, 1 / 2)] = (classified, Ok classified) /\
    dict_get classified "classification"
      = Some (Classification.Weights weights) /\
    (forall key,
       dict_get weights key
       = match dict_get [("grb"%string, 1)] key with
         | Some value => if Rltb (1 / 2) value then Some value else None
         | None => None
         end) /\
    (forall key, key <> "classification"%string ->
       dict_get classified key = dict_get transient key).
Proof.
  cbv zeta.
  apply (classify_keeps_weights_above_cutoff (fun _ => [("grb"%string, 1)])
           [("weight_cutoff"%string, 1 / 2)] (1 / 2)).
  - reflexivity.
  - discriminate.
  - discriminate.
  - repeat constructor. simpl. tauto.
Defined.

(** ** Properties of the job loop of quality_check.py *)

Lemma nth_middle_default (pre post : list string) (host : string) :
  nth (List.length pre) (pre ++ host :: post)%list EmptyString = host.
Proof. induction pre as [| p pre IH]; simpl; [ reflexivity | exact IH ]. Qed.

Lemma next_round_over (nodes nodes' : list string) (host : string) :
  nodes = host :: nodes' ->
  QualityCheck.next {| QualityCheck.pending := []; QualityCheck.saved := nodes |}
  = Ok (host, {| QualityCheck.pending := nodes'; QualityCheck.saved := nodes |}).
Proof. intros ->. reflexivity. Qed.

(** The loop from a cycle that has handed out [pre] of the current round
    and still holds [post]. *)
Lemma go_loop_round_robin (nodes : list string) (command : string)
    (dataset_id : option Z) (images : list string) :
  nodes <> [] ->
  forall pre post, nodes = (pre ++ post)%list ->
  exists jobs,
    QualityCheck.go_loop
      {| QualityCheck.pending := post; QualityCheck.saved := nodes |}
      command dataset_id images = Ok jobs /\
    List.length jobs = List.length images /\
    forall i image,
      nth_error images i = Some image ->
      nth_error jobs i
      = Some {| QualityCheck.job_host :=
                  nth ((List.length pre + i) mod List.length nodes) nodes
                      EmptyString;
                QualityCheck.job_command := command;
                QualityCheck.job_image := image;
                QualityCheck.job_dataset_id := dataset_id |}.
Proof.
  intros Hne. induction images as [| image rest IH]; intros pre post Hsplit.
  - exists []. split; [ reflexivity | ]. split; [ reflexivity | ].
    intros [| i] img Hi; discriminate Hi.
  - destruct post as [| host post'].
    + (* the round is over: the cycle starts again from the saved nodes *)
      rewrite app_nil_r in Hsplit. subst pre.
      assert (Hfirst : exists host nodes', nodes = host :: nodes')
        by (destruct nodes as [| h t]; [ contradiction | now exists h, t ]).
      destruct Hfirst as (host & nodes' & Hnodes).
      destruct (IH [host] nodes' Hnodes) as (jobs & Hloop & Hjobs & Hnth).
      cbn [QualityCheck.go_loop].
      rewrite (next_round_over nodes nodes' host Hnodes), Hloop.
      eexists. split; [ reflexivity | ].
      split; [ simpl; now rewrite Hjobs | ].
      intros [| i] img Hi; simpl in Hi |- *.
      * injection Hi as <-.
        rewrite Nat.add_0_r, Nat.Div0.mod_same. now rewrite Hnodes.
      * rewrite (Hnth i img Hi).
        replace (List.length nodes + S i)%nat
          with (List.length [host] + i + 1 * List.length nodes)%nat
          by (simpl; lia).
        now rewrite Nat.Div0.mod_add.
    + destruct (IH (pre ++ [host])%list post') as (jobs & Hloop & Hjobs & Hnth);
        [ now rewrite <- app_assoc | ].
      cbn [QualityCheck.go_loop]. unfold QualityCheck.next.
      cbn [QualityCheck.pending QualityCheck.saved].
      rewrite Hloop. eexists. split; [ reflexivity | ].
      split; [ simpl; now rewrite Hjobs | ].
      assert (Hpre : (List.length pre < List.length nodes)%nat)
        by (rewrite Hsplit, length_app; simpl; lia).
      intros [| i] img Hi; simpl in Hi |- *.
      * injection Hi as <-.
        rewrite Nat.add_0_r, Nat.mod_small by exact Hpre.
        replace (nth (List.length pre) nodes EmptyString) with host;
          [ reflexivity | ].
        rewrite Hsplit. symmetry. apply nth_middle_default.
      * rewrite (Hnth i img Hi).
        replace (List.length (pre ++ [host]) + i)%nat
          with (List.length pre + S i)%nat
          by (rewrite length_app; simpl; lia).
        reflexivity.
Qed.

(** X21: with at least one compute node, the loop of [go] builds one job
    per image, in the order of the images, and hands the nodes out in
    turn: the job of the image at position [i] runs on the node at
    position [i mod n] of the [n] nodes, with the command and the
    arguments [image, dataset_id]. *)
Theorem go_jobs_round_robin (nodes : list string) (command : string)
    (dataset_id : option Z) (images : list string) :
  nodes <> [] ->
  exists jobs,
    QualityCheck.go_jobs nodes command dataset_id images = Ok jobs /\
    List.length jobs = List.length images /\
    forall i image,
      nth_error images i = Some image ->
      nth_error jobs i
      = Some {| QualityCheck.job_host :=
                  nth (i mod List.length nodes) nodes EmptyString;
                QualityCheck.job_command := command;
                QualityCheck.job_image := image;
                QualityCheck.job_dataset_id := dataset_id |}.
Proof.
  intros Hne.
  exact (go_loop_round_robin nodes command dataset_id images Hne [] nodes
           eq_refl).
Qed.

Lemma go_jobs_round_robin_witness :
  ["node1"; "node2"]%string <> [] /\
  exists jobs,
    QualityCheck.go_jobs ["node1"; "node2"]%string "python nodes/quality_check.py"
      (Some 1%Z) ["a.fits"; "b.fits"; "c.fits"]%string = Ok jobs /\
    List.length jobs = 3%nat /\
    nth_error jobs 2
    = Some {| QualityCheck.job_host := "node1";
              QualityCheck.job_command := "python nodes/quality_check.py";
              QualityCheck.job_image := "c.fits";
              QualityCheck.job_dataset_id := Some 1%Z |}.
Proof.
  split; [ discriminate | ].
  destruct (go_jobs_round_robin ["node1"; "node2"]%string
              "python nodes/quality_check.py" (Some 1%Z)
              ["a.fits"; "b.fits"; "c.fits"]%string)
    as (jobs & Hjobs & Hlen & Hnth); [ discriminate | ].
  exists jobs. split; [ exact Hjobs | ]. split; [ exact Hlen | ].
  exact (Hnth 2%nat "c.fits"%string eq_refl).
Defined.

(** X22: with an empty list of compute nodes the loop of [go] raises
    [StopIteration] at the first image, so no job is built; with no
    image it builds no job, whatever the nodes. *)
Theorem go_jobs_without_nodes (command : string) (dataset_id : option Z)
    (nodes images : list string) :
  (images <> [] ->
   QualityCheck.go_jobs [] command dataset_id images = Raises StopIteration) /\
  QualityCheck.go_jobs nodes command dataset_id [] = Ok [].
Proof.
  split; [ | reflexivity ].
  intros Hne. destruct images as [| image rest]; [ contradiction | reflexivity ].
Qed.

(** ** Composition of bulk inserts *)

Lemma build_xtrsrc_app alpha_inflate image_id extract
    (first second : list detection) :
  build_xtrsrc alpha_inflate image_id extract (first ++ second)
  = match build_xtrsrc alpha_inflate image_id extract first with
    | Raised e => Raised e
    | Returned values1 =>
        match build_xtrsrc alpha_inflate image_id extract second with
        | Raised e => Raised e
        | Returned values2 => Returned (values1 ++ values2)%list
        end
    end.
Proof.
  induction first as [| src rest IH]; simpl.
  - now destruct (build_xtrsrc alpha_inflate image_id extract second).
  - destruct (enriched alpha_inflate image_id extract src) as [r | e]; simpl;
      [ | reflexivity ].
    rewrite IH.
    destruct (build_xtrsrc alpha_inflate image_id extract rest); simpl;
      [ | reflexivity ].
    now destruct (build_xtrsrc alpha_inflate image_id extract second).
Qed.

Lemma with_ids_app (next : Z) (values1 values2 : list xtrsrc) :
  with_ids next (values1 ++ values2)
  = (with_ids next values1
     ++ with_ids (next + Z.of_nat (List.length values1)) values2)%list.
Proof.
  revert next. induction values1 as [| v vs IH]; intros next; simpl.
  - now rewrite Z.add_0_r.
  - rewrite IH. do 3 f_equal. lia.
Qed.

Lemma insert_store_cases alpha_inflate db image_id results extract :
  store (insert_extracted_sources alpha_inflate db image_id results extract)
  = match build_xtrsrc alpha_inflate image_id extract results with
    | Raised _ => db
    | Returned values =>
        set_extractedsource db
          (extractedsource db ++ with_ids (extractedsource_seq db) values)%list
          (extractedsource_seq db + Z.of_nat (List.length values))
    end.
Proof.
  unfold insert_extracted_sources. destruct results as [| src rest].
  - cbn. rewrite app_nil_r, Z.add_0_r. symmetry. apply set_extractedsource_same.
  - now destruct (build_xtrsrc alpha_inflate image_id extract (src :: rest)).
Qed.

(** X23: inserting the detections of an image in two batches with the
    same extract type leaves the same store as inserting them in one
    batch: the same rows with the same identifiers, in the same order;
    only the log lines differ. *)
Theorem insert_in_batches alpha_inflate db image_id extract
    (first second : list detection) :
  store (insert_extracted_sources alpha_inflate
           (store (insert_extracted_sources alpha_inflate db image_id first
                     extract))
           image_id second extract)
  = store (insert_extracted_sources alpha_inflate db image_id
             (first ++ second) extract).
Proof.
  rewrite !insert_store_cases, build_xtrsrc_app.
  pose proof (build_xtrsrc_tag alpha_inflate image_id extract first) as H1.
  pose proof (build_xtrsrc_tag alpha_inflate image_id extract second) as H2.
  assert (Hsame : forall db0 : database,
            set_extractedsource db0
              (extractedsource db0 ++ with_ids (extractedsource_seq db0) [])%list
              (extractedsource_seq db0 + Z.of_nat (List.length (@nil xtrsrc)))
            = db0).
  { intros db0. cbn. rewrite app_nil_r, Z.add_0_r.
    apply set_extractedsource_same. }
  destruct (extract_type_tag extract) as [tag | e].
  - destruct H1 as (v1 & -> & _), H2 as (v2 & -> & _).
    unfold set_extractedsource. cbn [extractedsource extractedsource_seq
      assocxtrsource images frequencyband runningcatalog catalogedsource catalog].
    rewrite with_ids_app, length_app, Nat2Z.inj_add, <- app_assoc, Z.add_assoc.
    reflexivity.
  - destruct first as [| src1 rest1].
    + cbn [build_xtrsrc]. rewrite Hsame.
      now destruct (build_xtrsrc alpha_inflate image_id extract second).
    + rewrite (H1 ltac:(discriminate)).
      destruct second as [| src2 rest2].
      * cbn [build_xtrsrc]. apply Hsame.
      * now rewrite (H2 ltac:(discriminate)).
Qed.

(** ** Each catalog source at most once *)






